(** * Beam analysis engine: a shallow embedding of [calculations.ts]

    The file embeds the validation helpers and the statics engine of the beam
    analysis tool (reactions, internal forces, section properties, stresses
    and the diagram sampler) and states the properties of its specification
    over that embedding.  It also embeds the handlers of the component that
    edit the beam, the supports and the loads, and proves what the code
    itself guarantees about them and about the engine.

    Numbers.  The program computes on JavaScript numbers.  They are modelled
    by [num]: the three special values [NaN], [+Infinity], [-Infinity] with
    their IEEE-754 propagation rules, and the finite values as exact
    rationals.  Rounding of binary64 arithmetic and overflow are abstracted
    away (an operation on finite values returns the exact rational result),
    and the two zeros are identified (a division of a non-zero finite number
    by zero takes the sign of the numerator).  Finite results are kept in
    lowest terms, so that equal values are syntactically equal.

    The statements are chosen with this abstraction in mind.  They rest on
    what the exact and the binary64 operations share (the order and the
    comparisons, [Math.min] and [Math.max], the sign of a difference, the
    commutativity of a product, the propagation of the special values, the
    guards of the code, a rounding to three decimals that is monotone and
    idempotent), or they evaluate the code at values that binary64
    represents and computes exactly, or they bound a computed value on
    ordinary ranges of the inputs with a tolerance that leaves room for the
    rounding of the operations (see the ordinary ranges below).  Exact
    values of other computed results appear in auxiliary lemmas only. *)

From Stdlib Require Import QArith Qabs Qround Qminmax ZArith List Bool Lia Lqa.
Import ListNotations.

Local Open Scope Q_scope.

(* ================================================================== *)
(** ** JavaScript numbers *)

Module JSNumber.

Inductive num : Type :=
| NaN
| PInf
| NInf
| Fin (q : Q).

Definition Qzerob (q : Q) : bool := (Qnum q =? 0)%Z.
Definition Qnegb (q : Q) : bool := (Qnum q <? 0)%Z.
Definition Qltb (p q : Q) : bool := negb (Qle_bool q p).

Definition of_Z (z : Z) : num := Fin (inject_Z z).
Definition of_nat (n : nat) : num := of_Z (Z.of_nat n).

Definition zero : num := Fin 0.

Definition isNaN (a : num) : bool :=
  match a with NaN => true | _ => false end.

Definition isFinite (a : num) : bool :=
  match a with Fin _ => true | _ => false end.

(** [a + b] *)
Definition add (a b : num) : num :=
  match a, b with
  | NaN, _ | _, NaN => NaN
  | PInf, NInf | NInf, PInf => NaN
  | PInf, _ | _, PInf => PInf
  | NInf, _ | _, NInf => NInf
  | Fin p, Fin q => Fin (Qred (p + q))
  end.

(** [-a] *)
Definition neg (a : num) : num :=
  match a with
  | NaN => NaN
  | PInf => NInf
  | NInf => PInf
  | Fin p => Fin (Qred (- p))
  end.

(** [a - b] *)
Definition sub (a b : num) : num :=
  match a, b with
  | NaN, _ | _, NaN => NaN
  | PInf, PInf | NInf, NInf => NaN
  | PInf, _ | _, NInf => PInf
  | NInf, _ | _, PInf => NInf
  | Fin p, Fin q => Fin (Qred (p - q))
  end.

(** An infinity times a finite factor: [0 * Infinity] is [NaN]. *)
Definition inf_times (negative : bool) (q : Q) : num :=
  if Qzerob q then NaN
  else if xorb negative (Qnegb q) then NInf else PInf.

(** [a * b] *)
Definition mul (a b : num) : num :=
  match a, b with
  | NaN, _ | _, NaN => NaN
  | PInf, PInf | NInf, NInf => PInf
  | PInf, NInf | NInf, PInf => NInf
  | PInf, Fin q | Fin q, PInf => inf_times false q
  | NInf, Fin q | Fin q, NInf => inf_times true q
  | Fin p, Fin q => Fin (Qred (p * q))
  end.

(** [a / b]: [0 / 0] and [Infinity / Infinity] are [NaN], a non-zero finite
    number over zero is an infinity. *)
Definition div (a b : num) : num :=
  match a, b with
  | NaN, _ | _, NaN => NaN
  | (PInf | NInf), (PInf | NInf) => NaN
  | Fin _, (PInf | NInf) => Fin 0
  | PInf, Fin q => if Qnegb q then NInf else PInf
  | NInf, Fin q => if Qnegb q then PInf else NInf
  | Fin p, Fin q =>
      if Qzerob q then
        (if Qzerob p then NaN else if Qnegb p then NInf else PInf)
      else Fin (Qred (p / q))
  end.

(** [a < b]; every comparison with [NaN] is false. *)
Definition ltb (a b : num) : bool :=
  match a, b with
  | NaN, _ | _, NaN => false
  | _, NInf => false
  | NInf, _ => true
  | PInf, _ => false
  | Fin _, PInf => true
  | Fin p, Fin q => Qltb p q
  end.

(** [a <= b] *)
Definition leb (a b : num) : bool :=
  match a, b with
  | NaN, _ | _, NaN => false
  | NInf, _ => true
  | _, PInf => true
  | PInf, _ => false
  | Fin _, NInf => false
  | Fin p, Fin q => Qle_bool p q
  end.

(** [a > b] and [a >= b] *)
Definition gtb (a b : num) : bool := ltb b a.
Definition geb (a b : num) : bool := leb b a.

(** [Math.abs] *)
Definition Math_abs (a : num) : num :=
  match a with
  | NaN => NaN
  | PInf | NInf => PInf
  | Fin p => Fin (Qred (Qabs p))
  end.

(** [Math.max] and [Math.min] of two arguments: [NaN] as soon as one
    argument is [NaN]. *)
Definition Math_max (a b : num) : num :=
  match a, b with
  | NaN, _ | _, NaN => NaN
  | _, _ => if ltb a b then b else a
  end.

Definition Math_min (a b : num) : num :=
  match a, b with
  | NaN, _ | _, NaN => NaN
  | _, _ => if ltb b a then b else a
  end.

(** [Math.pow] at a literal natural exponent: [Math.pow(x, 0)] is [1] for
    every [x]. *)
Fixpoint Math_pow (a : num) (n : nat) : num :=
  match n with
  | O => Fin 1
  | S O => a
  | S m => mul a (Math_pow a m)
  end.

(** [Math.sqrt], over a square root [sqrtQ] of the non-negative rationals
    supplied by the host. *)
Definition Math_sqrt (sqrtQ : Q -> Q) (a : num) : num :=
  match a with
  | NaN | NInf => NaN
  | PInf => PInf
  | Fin p => if Qnegb p then NaN else Fin (Qred (sqrtQ p))
  end.

(** Truthiness of a number in a condition: [0] and [NaN] are falsy. *)
Definition truthy (a : num) : bool :=
  match a with
  | NaN => false
  | PInf | NInf => true
  | Fin p => negb (Qzerob p)
  end.

(** [Number(x.toFixed(d))] on a finite value.  [toFixed] prints the decimal
    with [d] digits that is nearest to [x], the larger one in magnitude on a
    tie; from [1e21] on it prints [x] as it is. *)
Definition Qpow10 (d : nat) : Q := inject_Z (10 ^ Z.of_nat d).

Definition QtoFixed (d : nat) (x : Q) : Q :=
  if Qle_bool (Qpow10 21) (Qabs x) then x
  else
    let n := Qfloor (Qabs x * Qpow10 d + (1 # 2)) in
    let r := inject_Z n / Qpow10 d in
    if Qnegb x then - r else r.

(** [Number(a.toFixed(d))]: [NaN] and the infinities print as their names
    and are read back unchanged. *)
Definition toFixed (d : nat) (a : num) : num :=
  match a with
  | Fin p => Fin (Qred (QtoFixed d p))
  | _ => a
  end.

(** Equality of numbers as values (finite values up to [Qeq]). *)
Definition num_eq (a b : num) : Prop :=
  match a, b with
  | NaN, NaN | PInf, PInf | NInf, NInf => True
  | Fin p, Fin q => p == q
  | _, _ => False
  end.

End JSNumber.

Import JSNumber.

Declare Scope num_scope.
Delimit Scope num_scope with num.
Bind Scope num_scope with num.
Notation "a + b" := (add a b) : num_scope.
Notation "a - b" := (sub a b) : num_scope.
Notation "a * b" := (mul a b) : num_scope.
Notation "a / b" := (div a b) : num_scope.
Notation "- a" := (neg a) : num_scope.
Notation "a <? b" := (ltb a b) : num_scope.
Notation "a <=? b" := (leb a b) : num_scope.
Notation "a >? b" := (gtb a b) : num_scope.
Notation "a >=? b" := (geb a b) : num_scope.

(** Decimal literals of the source. *)
Definition lit (n : Z) (d : positive) : num := Fin (Qred (n # d)).

Local Open Scope num_scope.

(* ================================================================== *)
(** ** Data model *)

Inductive LoadType : Type := point | distributed | moment | torsion.

Inductive SupportType : Type := pin | roller | fixed.

(** [interface Load]; [length] is optional ([length?: number]).  The ids
    are the integers that [addLoad] counts up from 1; an id is kept as an
    integer, and the one operation of the code on ids, the increment of
    [addLoad], is modelled with its binary64 rounding ([UI.succ_id]). *)
Record Load : Type := mkLoad {
  id : Z;
  type : LoadType;
  position : num;
  magnitude : num;
  length : option num
}.

Record Reactions : Type := mkReactions {
  reactionA : num;
  reactionB : num;
  momentA : num;
  momentB : num
}.

Record SectionProperties : Type := mkSectionProperties {
  area : num;
  momentOfInertia : num;
  sectionModulus : num;
  polarMomentOfInertia : num;
  torsionalConstant : num
}.

Record Stresses : Type := mkStresses {
  normalStress : num;
  shearStress : num;
  torsionalStress : num;
  vonMisesStress : num
}.

Definition LoadType_eqb (a b : LoadType) : bool :=
  match a, b with
  | point, point | distributed, distributed
  | moment, moment | torsion, torsion => true
  | _, _ => false
  end.

Definition SupportType_eqb (a b : SupportType) : bool :=
  match a, b with
  | pin, pin | roller, roller | fixed, fixed => true
  | _, _ => false
  end.

(** A missing [length] read as a number is [undefined], which arithmetic
    and comparisons convert to [NaN]. *)
Definition to_number (o : option num) : num :=
  match o with Some a => a | None => NaN end.

(** [if (load.length)]: [undefined], [0] and [NaN] are falsy. *)
Definition truthy_opt (o : option num) : bool :=
  match o with Some a => truthy a | None => false end.

(* ================================================================== *)
(** ** The utility functions (first part of [calculations.ts]) *)

Module Utils.

(** The messages of a failed validation; [PositionMessage] is the template
    [`Load position must be between 0 and ${beamLength} meters.`]. *)
Inductive Message : Type :=
| BeamLengthMessage
| PositionMessage (beamLength : num)
| MagnitudeMessage
| LengthMessage
| FitMessage.

Record ValidationResult : Type := mkValidationResult {
  isValid : bool;
  message : option Message
}.

Definition invalid (m : Message) : ValidationResult :=
  {| isValid := false; message := Some m |}.

Definition valid : ValidationResult :=
  {| isValid := true; message := None |}.

Definition validateBeamLength (value : num) : ValidationResult :=
  if isNaN value || (value <=? zero) then invalid BeamLengthMessage
  else valid.

Definition validateLoad (load : Load) (beamLength : num) : ValidationResult :=
  if isNaN (position load) || (position load <? zero)
     || (position load >? beamLength)
  then invalid (PositionMessage beamLength)
  else if isNaN (magnitude load) then invalid MagnitudeMessage
  else if LoadType_eqb (type load) distributed then
    if isNaN (to_number (length load)) || (to_number (length load) <=? zero)
    then invalid LengthMessage
    else if position load + to_number (length load) >? beamLength
    then invalid FitMessage
    else valid
  else valid.

Definition shear_step (x : num) (shear : num) (load : Load) : num :=
  match type load with
  | point => shear + (if x >? position load then magnitude load else zero)
  | distributed =>
      if x <=? position load then shear
      else if x <=? position load + to_number (length load) then
        shear + magnitude load * (x - position load)
      else shear + magnitude load * to_number (length load)
  | _ => shear
  end.

Definition calculateShear (x : num) (loads : list Load) : num :=
  fold_left (shear_step x) loads zero.

Definition moment_step (x : num) (m : num) (load : Load) : num :=
  match type load with
  | point =>
      m + (if x >? position load
           then magnitude load * (x - position load) else zero)
  | distributed =>
      if x <=? position load then m
      else if x <=? position load + to_number (length load) then
        let partialLength := x - position load in
        m + magnitude load * partialLength * partialLength / lit 2 1
      else
        m + magnitude load * to_number (length load)
            * (x - position load - to_number (length load) / lit 2 1)
  | moment => m + (if x >? position load then magnitude load else zero)
  | torsion => m
  end.

Definition calculateMoment (x : num) (loads : list Load) : num :=
  fold_left (moment_step x) loads zero.

(** [DiagramPoint] of the utility module. *)
Module DiagramPoint.
Record t : Type := mk {
  position : num;
  shear : num;
  moment : num
}.
End DiagramPoint.

Definition points : nat := 100.

(** [Array.from({ length: points + 1 }, (_, i) => ...)] *)
Definition generateDiagramData (beamLength : num) (loads : list Load)
  : list DiagramPoint.t :=
  let dx := beamLength / of_nat points in
  map (fun i : nat =>
         let x := of_nat i * dx in
         {| DiagramPoint.position := toFixed 3 x;
            DiagramPoint.shear := toFixed 3 (calculateShear x loads);
            DiagramPoint.moment := toFixed 3 (calculateMoment x loads) |})
      (seq 0 (points + 1)).

End Utils.

(* ================================================================== *)
(** ** The component (second part of [calculations.ts])

    The React state of the component (beam dimensions, loads, supports and
    the [reactions] set by the effect) is threaded as section variables:
    each function takes the part of the state its closure reads. *)

Module BeamAnalysis.

(** [DiagramPoint] of the component. *)
Module DiagramPoint.
Record t : Type := mk {
  position : num;
  shear : num;
  moment : num;
  torsion : num;
  normalStress : num;
  shearStress : num;
  torsionalStress : num;
  vonMisesStress : num
}.
End DiagramPoint.

Definition zeroReactions : Reactions :=
  {| reactionA := zero; reactionB := zero; momentA := zero; momentB := zero |}.

Section Component.

Variable sqrtQ : Q -> Q.
Variables beamLength beamHeight beamWidth : num.
Variable loads : list Load.
Variables startSupportPosition endSupportPosition : num.
Variables startSupport endSupport : SupportType.
Variable reactions : Reactions.

Definition calculateSectionProperties : SectionProperties :=
  let area := Math_max (lit 1 1000) (beamHeight * beamWidth) in
  let momentOfInertia := (beamWidth * Math_pow beamHeight 3) / lit 12 1 in
  let sectionModulus := (lit 2 1 * momentOfInertia) / beamHeight in
  let a := Math_max beamWidth beamHeight in
  let b := Math_min beamWidth beamHeight in
  let torsionalConstant :=
    a * Math_pow b 3
    * (lit 1 1 / lit 3 1
       - lit 21 100 * (b / a) * (lit 1 1 - Math_pow (b / a) 4 / lit 12 1)) in
  let polarMomentOfInertia :=
    (beamWidth * Math_pow beamHeight 3 + beamHeight * Math_pow beamWidth 3)
    / lit 12 1 in
  {| area := area;
     momentOfInertia := momentOfInertia;
     sectionModulus := sectionModulus;
     polarMomentOfInertia := polarMomentOfInertia;
     torsionalConstant := torsionalConstant |}.

(** The guard [x < startSupportPosition || x > endSupportPosition]. *)
Definition outside (x : num) : bool :=
  (x <? startSupportPosition) || (x >? endSupportPosition).

Definition torsion_step (x : num) (t : num) (load : Load) : num :=
  if negb (LoadType_eqb (type load) torsion) || (position load >? x) then t
  else if LoadType_eqb (type load) torsion then t + magnitude load
  else t.

Definition calculateTorsion (x : num) : num :=
  if outside x then zero
  else toFixed 3 (fold_left (torsion_step x) loads zero).

(** First loop of [calculateReactions]: the fixed-end moments, as the pair
    [(momentA, momentB)]. *)
Definition fem_step (span : num) (mm : num * num) (load : Load) : num * num :=
  let a := position load - startSupportPosition in
  let b := endSupportPosition - position load in
  if LoadType_eqb (type load) point && (a >=? zero) && (b >=? zero) then
    let FEM := (magnitude load * a * b * b) / (span * span) in
    (fst mm + FEM, snd mm + (- FEM) * (a / b))
  else mm.

(** Second loop of [calculateReactions]: the pair [(reactionA, reactionB)]
    is assigned, not accumulated, by every load that reaches a [case]. *)
Definition reaction_step (span : num) (rr : num * num) (load : Load)
  : num * num :=
  if (position load <? startSupportPosition)
     || (position load >? endSupportPosition) then rr
  else
    let relativePosition := position load - startSupportPosition in
    match type load with
    | point =>
        let reactionB :=
          (Math_abs (magnitude load) * relativePosition) / span in
        let reactionA := Math_abs (magnitude load) - reactionB in
        (reactionA, reactionB)
    | distributed =>
        match length load with
        | Some len =>
            if truthy len then
              let startX := Math_max (position load) startSupportPosition in
              let endX := Math_min (position load + len) endSupportPosition in
              let effectiveLength := endX - startX in
              let totalForce := Math_abs (magnitude load) * effectiveLength in
              let centerOfForce :=
                startX + effectiveLength / lit 2 1 - startSupportPosition in
              let reactionB := (totalForce * centerOfForce) / span in
              let reactionA := totalForce - reactionB in
              (reactionA, reactionB)
            else rr
        | None => rr
        end
    | moment =>
        let reactionB := magnitude load / span in
        let reactionA := - reactionB in
        (reactionA, reactionB)
    | torsion => rr
    end.

Definition fixedEndMoments (span : num) : num * num :=
  if SupportType_eqb startSupport fixed || SupportType_eqb endSupport fixed
  then fold_left (fem_step span) loads (zero, zero)
  else (zero, zero).

Definition primaryReactions (span : num) : num * num :=
  fold_left (reaction_step span) loads (zero, zero).

Definition calculateReactions : Reactions :=
  let span := endSupportPosition - startSupportPosition in
  if span <=? zero then zeroReactions
  else
    let '(momentA, momentB) := fixedEndMoments span in
    let '(reactionA, reactionB) := primaryReactions span in
    let '(reactionA, reactionB) :=
      if SupportType_eqb startSupport fixed && SupportType_eqb endSupport fixed
      then
        let adjustment := (momentA - momentB) / span in
        (reactionA + adjustment, reactionB - adjustment)
      else if SupportType_eqb startSupport fixed then
        (reactionA + momentA / span, reactionB - momentA / span)
      else if SupportType_eqb endSupport fixed then
        (reactionA + momentB / span, reactionB - momentB / span)
      else (reactionA, reactionB) in
    {| reactionA := toFixed 3 reactionA;
       reactionB := toFixed 3 reactionB;
       momentA := toFixed 3 momentA;
       momentB := toFixed 3 momentB |}.

Definition shear_step (x : num) (shear : num) (load : Load) : num :=
  if position load >? x then shear
  else
    match type load with
    | point => shear - magnitude load
    | distributed =>
        match length load with
        | Some len =>
            if truthy len then
              let endX := Math_min x (position load + len) in
              let effectiveLength := endX - position load in
              if effectiveLength >? zero
              then shear - magnitude load * effectiveLength
              else shear
            else shear
        | None => shear
        end
    | _ => shear
    end.

Definition calculateShear (x : num) : num :=
  if outside x then zero
  else toFixed 3 (fold_left (shear_step x) loads (reactionA reactions)).

Definition moment_step (x : num) (m : num) (load : Load) : num :=
  if position load >? x then m
  else
    match type load with
    | point => m - magnitude load * (x - position load)
    | distributed =>
        match length load with
        | Some len =>
            if truthy len then
              let endX := Math_min x (position load + len) in
              let effectiveLength := endX - position load in
              if effectiveLength >? zero then
                let centroid := position load + effectiveLength / lit 2 1 in
                m - magnitude load * effectiveLength * (x - centroid)
              else m
            else m
        | None => m
        end
    | moment => m - magnitude load
    | torsion => m
    end.

Definition calculateMoment (x : num) : num :=
  if outside x then zero
  else
    let m := reactionA reactions * (x - startSupportPosition) in
    let m := if SupportType_eqb startSupport fixed
             then m + momentA reactions else m in
    toFixed 3 (fold_left (moment_step x) loads m).

Definition calculateStresses (x : num) : Stresses :=
  let props := calculateSectionProperties in
  let m := calculateMoment x in
  let shear := calculateShear x in
  let t := calculateTorsion x in
  let normalStress := Math_abs m / sectionModulus props / lit 1000000 1 in
  let Q := (beamWidth * beamHeight * beamHeight) / lit 8 1 in
  let shearStress :=
    Math_abs (shear * Q) / (momentOfInertia props * beamWidth)
    / lit 1000000 1 in
  let maxTorsionalStress :=
    Math_abs (t * beamHeight) / (lit 2 1 * torsionalConstant props)
    / lit 1000000 1 in
  let vonMisesStress :=
    Math_sqrt sqrtQ
      (Math_pow normalStress 2
       + lit 3 1 * (Math_pow shearStress 2 + Math_pow maxTorsionalStress 2)) in
  {| normalStress := toFixed 3 normalStress;
     shearStress := toFixed 3 shearStress;
     torsionalStress := toFixed 3 maxTorsionalStress;
     vonMisesStress := toFixed 3 vonMisesStress |}.

Definition points : nat := 100.

Definition generateDiagramData : list DiagramPoint.t :=
  let dx := beamLength / of_nat points in
  map (fun i : nat =>
         let x := toFixed 3 (of_nat i * dx) in
         let stresses := calculateStresses x in
         {| DiagramPoint.position := x;
            DiagramPoint.shear := calculateShear x;
            DiagramPoint.moment := calculateMoment x;
            DiagramPoint.torsion := calculateTorsion x;
            DiagramPoint.normalStress := normalStress stresses;
            DiagramPoint.shearStress := shearStress stresses;
            DiagramPoint.torsionalStress := torsionalStress stresses;
            DiagramPoint.vonMisesStress := vonMisesStress stresses |})
      (seq 0 (points + 1)).

End Component.

End BeamAnalysis.

(* ================================================================== *)
(** ** The properties of the specification, as stated *)

Module Spec.

Import BeamAnalysis.

(** *** Equilibrium *)

(** Total applied force: the point loads and the total force of the
    distributed loads. *)
Definition force_step (s : num) (l : Load) : num :=
  match type l with
  | point => s + magnitude l
  | distributed => s + magnitude l * to_number (length l)
  | _ => s
  end.

Definition appliedForce (loads : list Load) : num :=
  fold_left force_step loads zero.

(** Moment of the applied forces about the position [sA]. *)
Definition forceMoment_step (sA : num) (s : num) (l : Load) : num :=
  match type l with
  | point => s + magnitude l * (position l - sA)
  | distributed =>
      s + magnitude l * to_number (length l)
          * (position l + to_number (length l) / lit 2 1 - sA)
  | _ => s
  end.

Definition appliedMomentAbout (sA : num) (loads : list Load) : num :=
  fold_left (forceMoment_step sA) loads zero.

(** *** Last load wins *)

(** A load overlaps the support span when the second loop of
    [calculateReactions] does not skip it. *)
Definition inSpan (sA sB : num) (l : Load) : bool :=
  negb ((position l <? sA) || (position l >? sB)).

Definition lastInSpan (sA sB : num) (loads : list Load) : option Load :=
  find (inSpan sA sB) (rev loads).

(** The claim as stated: with at least two loads in the span, the primary
    reactions are those of the last load in the span alone. *)
Definition lastInSpanWins : Prop :=
  forall (loads : list Load) (sA sB : num) (l : Load),
    (2 <= List.length (filter (inSpan sA sB) loads))%nat ->
    lastInSpan sA sB loads = Some l ->
    primaryReactions loads sA sB (sB - sA)
    = primaryReactions [l] sA sB (sB - sA).

(** A load in the span assigns the reactions when its type has a [case]
    that writes them: a point load, a moment, or a distributed load with a
    truthy [length]. *)
Definition assigns (sA sB : num) (l : Load) : bool :=
  inSpan sA sB l
  && match type l with
     | point | moment => true
     | distributed => truthy_opt (length l)
     | torsion => false
     end.

Definition lastAssigning (sA sB : num) (loads : list Load) : option Load :=
  find (assigns sA sB) (rev loads).

(** *** Fixed-end moments *)

(** The claim as stated: an end moment is non-zero only at a fixed support. *)
Definition momentsOnlyAtFixed : Prop :=
  forall (loads : list Load) (sA sB : num) (kA kB : SupportType),
    let r := calculateReactions loads sA sB kA kB in
    (kA <> fixed -> momentA r = zero) /\ (kB <> fixed -> momentB r = zero).

(** *** Validation rules *)

(** The rules of the specification for a load on a beam. *)
Definition rulesHold (load : Load) (beamLength : num) : bool :=
  isFinite beamLength && (beamLength >? zero)
  && isFinite (position load)
  && (zero <=? position load) && (position load <=? beamLength)
  && isFinite (magnitude load)
  && match type load with
     | distributed =>
         match length load with
         | Some len =>
             isFinite len && (len >? zero)
             && (position load + len <=? beamLength)
         | None => false
         end
     | _ => true
     end.

(** The claim as stated: valid exactly when every rule holds. *)
Definition validExactlyWhenRulesHold : Prop :=
  forall (load : Load) (beamLength : num),
    Utils.isValid (Utils.validateLoad load beamLength)
    = rulesHold load beamLength.

(** *** Section properties *)

Definition epsilon : num := lit 1 1000.

(** The section properties in the words of the specification, for a
    rectangle of width [w] and height [h]. *)
Definition sectionProperties (w h : num) : SectionProperties :=
  let I := w * Math_pow h 3 / lit 12 1 in
  let a := Math_max w h in
  let b := Math_min w h in
  {| area := Math_max epsilon (w * h);
     momentOfInertia := I;
     sectionModulus := lit 2 1 * I / h;
     polarMomentOfInertia :=
       (w * Math_pow h 3 + h * Math_pow w 3) / lit 12 1;
     torsionalConstant :=
       a * Math_pow b 3
       * (lit 1 1 / lit 3 1
          - lit 21 100 * (b / a) * (lit 1 1 - Math_pow (b / a) 4 / lit 12 1))
  |}.

(** *** Diagram positions *)

Fixpoint strictlyIncreasing (l : list num) : bool :=
  match l with
  | a :: (b :: _) as t => (a <? b) && strictlyIncreasing t
  | _ => true
  end.

(** The positions of the sampled diagram, in order. *)
Definition positions (sqrtQ : Q -> Q) (beamLength beamHeight beamWidth : num)
    (loads : list Load) (sA sB : num) (kA : SupportType) (r : Reactions)
  : list num :=
  map DiagramPoint.position
      (generateDiagramData sqrtQ beamLength beamHeight beamWidth loads
         sA sB kA r).

Definition utilsPositions (beamLength : num) (loads : list Load) : list num :=
  map Utils.DiagramPoint.position (Utils.generateDiagramData beamLength loads).

(** The claim as stated, on the utility sampler: 101 points, positions
    strictly increasing from 0 to the beam length. *)
Definition positionsFromZeroToLength : Prop :=
  forall (q : Q) (loads : list Load),
    0 < q ->
    let ps := utilsPositions (Fin q) loads in
    List.length ps = 101%nat
    /\ strictlyIncreasing ps = true
    /\ nth 0 ps NaN = zero
    /\ num_eq (nth 100 ps NaN) (Fin q).

(** *** Degenerate geometry *)

Definition allNaN : Stresses :=
  {| normalStress := NaN; shearStress := NaN;
     torsionalStress := NaN; vonMisesStress := NaN |}.

End Spec.

(* ================================================================== *)
(** ** Sample data and auxiliary definitions *)

Import BeamAnalysis.

Definition n (z : Z) : num := lit z 1.

Definition midLoad : Load := mkLoad 1 point (lit 5 2) (n 50) None.

Definition twoPointLoads : list Load :=
  [ mkLoad 1 point (n 1) (n 50) None; mkLoad 2 point (n 4) (n 50) None ].

Definition emptyDistributed : Load :=
  mkLoad 2 distributed (n 1) (n 5) (Some zero).

Definition torsionLast : list Load :=
  [ midLoad; mkLoad 2 torsion (n 1) (n 10) None ].

(** What a load that assigns the reactions writes. *)
Definition assigned (sA sB span : num) (l : Load) : num * num :=
  reaction_step sA sB span (zero, zero) l.

(** A value that is 0 or [NaN]: what a product with a zero factor is. *)
Definition zeroish (a : num) : Prop :=
  match a with
  | NaN => True
  | Fin q => Qzerob q = true
  | _ => False
  end.

(** The decimal with [d] digits nearest to a non-negative [x]. *)
Definition Qround (d : nat) (x : Q) : Q :=
  (inject_Z (Qfloor (x * Qpow10 d + (1 # 2))) / Qpow10 d)%Q.

(** The sampled position of index [i], before rounding. *)
Definition station (q : Q) (i : nat) : Q :=
  (Qred (inject_Z (Z.of_nat i) * Qred (q / inject_Z 100)))%Q.

(** Tactics for the validation cascade: [step] reduces the decided test,
    [reject] closes a branch that returns an invalid result up to the
    failed rule. *)
Ltac step :=
  cbn [orb negb to_number isNaN LoadType_eqb
       Utils.isValid Utils.message Utils.invalid Utils.valid].

Ltac reject :=
  split; split; try discriminate; eauto.

(* ================================================================== *)
(** ** The state of the component and its handlers *)

Module UI.

(** The [useState] cells of the component. *)
Record State : Type := mkState {
  beamLength : num;
  beamHeight : num;
  beamWidth : num;
  loads : list Load;
  startSupportPosition : num;
  endSupportPosition : num;
  startSupport : SupportType;
  endSupport : SupportType;
  showStressInfo : bool;
  reactions : Reactions
}.

(** The object literal of [handleBeamLengthChange]: [load.position] in the
    [length] field is the position before clamping, and a falsy length
    becomes [undefined]. *)
Definition clipLoad (newLength : num) (load : Load) : Load :=
  {| id := id load;
     type := type load;
     position := Math_min (position load) newLength;
     magnitude := magnitude load;
     length :=
       match length load with
       | Some len =>
           if truthy len
           then Some (Math_min len (newLength - position load))
           else None
       | None => None
       end |}.

Definition handleBeamLengthChange (st : State) (newLength : num) : State :=
  if newLength >? zero then
    {| beamLength := newLength;
       beamHeight := beamHeight st;
       beamWidth := beamWidth st;
       loads := map (clipLoad newLength) (loads st);
       startSupportPosition := startSupportPosition st;
       endSupportPosition := Math_min (endSupportPosition st) newLength;
       startSupport := startSupport st;
       endSupport := endSupport st;
       showStressInfo := showStressInfo st;
       reactions := reactions st |}
  else st.

Definition setStartSupportPosition (st : State) (p : num) : State :=
  {| beamLength := beamLength st;
     beamHeight := beamHeight st;
     beamWidth := beamWidth st;
     loads := loads st;
     startSupportPosition := p;
     endSupportPosition := endSupportPosition st;
     startSupport := startSupport st;
     endSupport := endSupport st;
     showStressInfo := showStressInfo st;
     reactions := reactions st |}.

Definition setEndSupportPosition (st : State) (p : num) : State :=
  {| beamLength := beamLength st;
     beamHeight := beamHeight st;
     beamWidth := beamWidth st;
     loads := loads st;
     startSupportPosition := startSupportPosition st;
     endSupportPosition := p;
     startSupport := startSupport st;
     endSupport := endSupport st;
     showStressInfo := showStressInfo st;
     reactions := reactions st |}.

Definition handleSupportPositionChange (st : State) (p : num)
    (isStart : bool) : State :=
  if isStart then
    if (p >=? zero) && (p <? endSupportPosition st)
    then setStartSupportPosition st p else st
  else
    if (p >? startSupportPosition st) && (p <=? beamLength st)
    then setEndSupportPosition st p else st.

(** [Math.max(0, ...loads.map(l => l.id))] *)
Definition maxId (ls : list Load) : Z :=
  fold_right Z.max 0%Z (map id ls).

(** [z + 1] on a non-negative integer id.  The integers up to 2^53 are
    binary64 numbers and the sum is exact below 2^53.  From 2^53 on the
    numbers are 2 apart up to 2^54, the sum lies half-way between two of
    them and is rounded to the one with the even significand; from 2^54 on
    the sum is rounded back to [z]. *)
Definition succ_id (z : Z) : Z :=
  if (z <? 2 ^ 53)%Z then (z + 1)%Z
  else if (z <? 2 ^ 54)%Z
       then (if Z.even (z / 2) then z else z + 2)%Z
       else z.

(** [addLoad]: the list [[...loads, newLoad]]. *)
Definition addLoad (ls : list Load) (beamLength : num) : list Load :=
  let newLoad :=
    {| id := succ_id (maxId ls);
       type := point;
       position := beamLength / lit 2 1;
       magnitude := lit (-10) 1;
       length := None |} in
  ls ++ [newLoad].

(** The pair [(field, value)] of [updateLoad], for the values a field can
    hold: a load type for ['type'], an integer for ['id'], and for the other
    fields the number [Number(value)]. *)
Inductive Update : Type :=
| SetId (v : Z)
| SetType (t : LoadType)
| SetPosition (v : num)
| SetMagnitude (v : num)
| SetLength (v : num).

Definition applyUpdate (beamLength : num) (u : Update) (load : Load) : Load :=
  match u with
  | SetId v =>
      {| id := v; type := type load; position := position load;
         magnitude := magnitude load; length := length load |}
  | SetType t =>
      {| id := id load; type := t; position := position load;
         magnitude := magnitude load; length := length load |}
  | SetPosition v =>
      {| id := id load; type := type load;
         position := Math_max zero (Math_min beamLength v);
         magnitude := magnitude load; length := length load |}
  | SetMagnitude v =>
      {| id := id load; type := type load; position := position load;
         magnitude := v; length := length load |}
  | SetLength v =>
      {| id := id load; type := type load; position := position load;
         magnitude := magnitude load;
         length :=
           Some (Math_max zero (Math_min (beamLength - position load) v)) |}
  end.

Definition updateLoad (ls : list Load) (beamLength : num)
    (i : Z) (u : Update) : list Load :=
  map (fun load =>
         if negb (id load =? i)%Z then load
         else applyUpdate beamLength u load) ls.

(** The remove button: [loads.filter(l => l.id !== load.id)]. *)
Definition removeLoad (ls : list Load) (i : Z) : list Load :=
  filter (fun l => negb (id l =? i)%Z) ls.

(** [0 <= startSupportPosition < endSupportPosition <= beamLength] *)
Definition supportsOrdered (st : State) : bool :=
  (zero <=? startSupportPosition st)
  && (startSupportPosition st <? endSupportPosition st)
  && (endSupportPosition st <=? beamLength st).

End UI.

(* ================================================================== *)
(** ** Finite values *)

(** [denotes a q]: the number [a] is finite, of value [q]. *)
Definition denotes (a : num) (q : Q) : Prop :=
  match a with
  | Fin p => (p == q)%Q
  | _ => False
  end.

(** The third power and the fourth power of a rational. *)
Definition Qcube (q : Q) : Q := (q * (q * q))%Q.
Definition Qfourth (q : Q) : Q := (q * (q * (q * q)))%Q.

(** Types of load. *)
Definition isTorsion (l : Load) : bool := LoadType_eqb (type l) torsion.

(** Samples for the handlers and the single-load theorems. *)
Definition uniformLoad : Load :=
  mkLoad 3 distributed (n 1) (n 5) (Some (n 2)).

Definition coupleLoad : Load := mkLoad 4 moment (n 3) (n 15) None.

Definition endLoad : Load := mkLoad 5 point (n 5) (n 50) None.

Definition sampleLoads : list Load := [midLoad; uniformLoad; coupleLoad].

Definition sampleState : UI.State :=
  {| UI.beamLength := n 5;
     UI.beamHeight := lit 1 5;
     UI.beamWidth := lit 1 10;
     UI.loads := sampleLoads;
     UI.startSupportPosition := n 0;
     UI.endSupportPosition := n 4;
     UI.startSupport := pin;
     UI.endSupport := roller;
     UI.showStressInfo := false;
     UI.reactions := BeamAnalysis.zeroReactions |}.

Definition notTorsion (l : Load) : bool := negb (isTorsion l).

(** A load whose numeric fields are finite numbers. *)
Definition finiteLoad (l : Load) : bool :=
  isFinite (position l) && isFinite (magnitude l)
  && match length l with Some len => isFinite len | None => true end.

Definition finiteNonzero (a : num) : Prop :=
  exists q, a = Fin q /\ Qzerob q = false.

(** A point load that is not on the end support. *)
Definition offEndSupport (b : Q) (l : Load) : Prop :=
  type l = point -> ~ denotes (position l) b.

(** A point load that is at least 0.001 before the end support, or beyond
    it. *)
Definition clearOfEnd (b : Q) (l : Load) : Prop :=
  type l = point ->
  forall p, position l = Fin p -> (p + (1 # 1000) <= b)%Q \/ (b < p)%Q.

(** A finite number above 0. *)
Definition finitePositive (a : num) : Prop :=
  exists q, a = Fin q /\ (0 < q)%Q.

(** A finite number that is not below 0. *)
Definition finiteNonNegative (a : num) : Prop :=
  exists q, a = Fin q /\ (0 <= q)%Q.

(** *** Ordinary ranges

    The finite values of the model are exact; those of the program are
    binary64 numbers, where every operation rounds its result (with a
    relative error of at most 2^-53), overflows to an infinity beyond
    1.8e308 and loses the results below 2.2e-308.  The properties of
    computed values are therefore stated on ranges of the inputs on which
    the results neither overflow nor underflow and on which the rounding of
    the operations stays far below the slack that the stated tolerances
    leave next to the rounding to three decimals. *)

(** A finite number of absolute value at most [B]. *)
Definition within (B : Q) (a : num) : Prop :=
  exists q, a = Fin q /\ (Qabs q <= B)%Q.

(** Supports within [[-1000, 1000]] and at least 0.001 apart. *)
Definition ordinarySpan (a b : Q) : Prop :=
  (-1000 <= a)%Q /\ (b <= 1000)%Q /\ (1 # 1000 <= b - a)%Q.

(** A side of the cross-section between 0.001 and 1000. *)
Definition ordinarySide (w : Q) : Prop := (1 # 1000 <= w <= 1000)%Q.

(** A load whose numeric fields are finite and at most [B] in absolute
    value. *)
Definition boundedLoad (B : Q) (l : Load) : Prop :=
  within B (position l) /\ within B (magnitude l)
  /\ match length l with Some len => within B len | None => True end.

(** Closes a decided side condition on concrete numbers. *)
Ltac decided :=
  first [ reflexivity
        | discriminate
        | (unfold Qle, Qlt, Qeq; simpl; lia)
        | (split; unfold Qle, Qlt, Qeq; simpl; lia)
        | (intros E; unfold Qeq in E; simpl in E; lia) ].

(** The same for the ranges. *)
Ltac ranged :=
  first [ decided
        | (unfold ordinarySpan, ordinarySide;
           repeat split; unfold Qle, Qlt; simpl; lia)
        | (eexists; split; [reflexivity | unfold Qle; simpl; lia])
        | exact I ].

(* ================================================================== *)
(** ** Theorems *)

(** *** Zero span *)

(** C3. Whenever the span [sB - sA] is [<= 0], [calculateReactions] returns
    the four outputs equal to 0, for every load set and support kinds; the
    function is total, so nothing is thrown.  In particular this is so for
    two supports at the same finite position. *)
Theorem calculateReactions_nonpositive_span :
  forall (loads : list Load) (sA sB : num) (kA kB : SupportType),
    (sB - sA <=? zero) = true ->
    calculateReactions loads sA sB kA kB
    = {| reactionA := zero; reactionB := zero;
         momentA := zero; momentB := zero |}.
Proof.
  intros loads sA sB kA kB Hspan.
  unfold calculateReactions. rewrite Hspan. reflexivity.
Qed.

Lemma calculateReactions_nonpositive_span_witness :
  (n 2 - n 2 <=? zero) = true
  /\ calculateReactions twoPointLoads (n 2) (n 2) fixed pin = zeroReactions.
Proof.
  split.
  - vm_compute. reflexivity.
  - apply (calculateReactions_nonpositive_span twoPointLoads (n 2) (n 2)).
    vm_compute. reflexivity.
Defined.

(** A span between two supports at the same finite position is [0]. *)
Lemma same_position_span : forall q : Q, (Fin q - Fin q <=? zero) = true.
Proof.
  intros q. change (Qle_bool (Qred (q - q)) 0 = true). apply Qle_bool_iff.
  rewrite Qred_correct. unfold Qminus. rewrite Qplus_opp_r. apply Qle_refl.
Qed.

Corollary calculateReactions_same_position :
  forall (loads : list Load) (q : Q) (kA kB : SupportType),
    calculateReactions loads (Fin q) (Fin q) kA kB = zeroReactions.
Proof.
  intros. unfold calculateReactions. now rewrite same_position_span.
Qed.

(** *** The scenario of the single midspan load *)

(** C4. Beam of length 5, one point load of magnitude 50 at 2.5, a pin at 0
    and a roller at 5: the reactions are 25 and 25, the moment is 62.5 at
    2.5 and 0 at both ends. *)
Theorem midspan_point_load_scenario :
  let r := calculateReactions [midLoad] (n 0) (n 5) pin roller in
  let M := calculateMoment [midLoad] (n 0) (n 5) pin r in
  reactionA r = n 25 /\ reactionB r = n 25
  /\ M (lit 5 2) = lit 125 2 /\ M (n 0) = n 0 /\ M (n 5) = n 0.
Proof.
  vm_compute. repeat split; reflexivity.
Qed.

(** *** Fixed-end moments *)

Lemma not_fixed :
  forall k : SupportType, k <> fixed -> SupportType_eqb k fixed = false.
Proof.
  intros [] H; try reflexivity. congruence.
Qed.

(** When neither support is fixed, both end moments returned by
    [calculateReactions] are 0, for every load set: the loop that
    accumulates them is not entered. *)
Lemma moments_zero_without_fixed_support :
  forall (loads : list Load) (sA sB : num) (kA kB : SupportType),
    kA <> fixed -> kB <> fixed ->
    momentA (calculateReactions loads sA sB kA kB) = zero
    /\ momentB (calculateReactions loads sA sB kA kB) = zero.
Proof.
  intros loads sA sB kA kB HA HB.
  unfold calculateReactions, fixedEndMoments.
  destruct (sB - sA <=? zero); [split; reflexivity|].
  assert (EA : SupportType_eqb kA fixed = false)
    by now apply not_fixed.
  assert (EB : SupportType_eqb kB fixed = false)
    by now apply not_fixed.
  rewrite EA, EB. simpl.
  destruct (primaryReactions loads sA sB (sB - sA)) as [rA rB]. simpl.
  split; reflexivity.
Qed.

Lemma moments_zero_without_fixed_support_witness :
  momentA (calculateReactions twoPointLoads (n 0) (n 5) pin roller) = zero
  /\ momentB (calculateReactions twoPointLoads (n 0) (n 5) pin roller) = zero.
Proof.
  apply moments_zero_without_fixed_support; discriminate.
Defined.

(** The other readers of the end moments use each one at its own fixed
    support only.  [calculateMoment] adds [momentA] under
    [startSupport === 'fixed'] (l.326): at a pin or a roller the bending
    moment is the same whatever [momentA] the record carries. *)
Lemma calculateMoment_reads_momentA_at_fixed_start :
  forall (loads : list Load) (sA sB : num) (kA : SupportType)
         (r : Reactions) (m x : num),
    kA <> fixed ->
    calculateMoment loads sA sB kA
      {| reactionA := reactionA r; reactionB := reactionB r;
         momentA := m; momentB := momentB r |} x
    = calculateMoment loads sA sB kA r x.
Proof.
  intros loads sA sB kA r m x HA. unfold calculateMoment.
  rewrite (not_fixed kA HA). reflexivity.
Qed.

(** In [calculateReactions] itself the branch of a fixed end next to a
    start that is not fixed (l.280-282) adjusts the reactions with
    [momentB] alone: the [momentA] accumulated by the first loop is not
    read there. *)
Lemma end_fixed_adjustment_reads_momentB :
  forall (loads : list Load) (sA sB : num) (kA : SupportType),
    kA <> fixed -> (sB - sA <=? zero) = false ->
    let span := sB - sA in
    let mB := snd (fixedEndMoments loads sA sB kA fixed span) in
    let rr := primaryReactions loads sA sB span in
    reactionA (calculateReactions loads sA sB kA fixed)
      = toFixed 3 (fst rr + mB / span)
    /\ reactionB (calculateReactions loads sA sB kA fixed)
      = toFixed 3 (snd rr - mB / span).
Proof.
  intros loads sA sB kA HA Hspan. cbv zeta.
  unfold calculateReactions. rewrite Hspan.
  destruct (fixedEndMoments loads sA sB kA fixed (sB - sA)) as [mA mB].
  destruct (primaryReactions loads sA sB (sB - sA)) as [rA rB].
  rewrite (not_fixed kA HA). simpl. split; reflexivity.
Qed.

(** C5, at a point load of 50 at 2.5 on a span from 0 to 5 with a pin at the
    start and a fixed end: the record returned by [calculateReactions]
    carries [momentA] = 31.25 at the pin (next to [momentB] = -31.25 at the
    fixed end, and the reactions 18.75 and 31.25).  The loop of the
    fixed-end moments runs under [startSupport === 'fixed' || endSupport ===
    'fixed'] and accumulates both moments, and the record returns both. *)
Theorem pin_start_reports_end_moment :
  let r := calculateReactions [midLoad] (n 0) (n 5) pin fixed in
  r = {| reactionA := lit 75 4; reactionB := lit 125 4;
         momentA := lit 125 4; momentB := lit (-125) 4 |}
  /\ momentA r <> zero.
Proof.
  vm_compute. split; [reflexivity | discriminate].
Qed.

(** Hence the property of the [Reactions] record does not hold of the
    code. *)
Lemma moments_only_at_fixed_counterexample : ~ Spec.momentsOnlyAtFixed.
Proof.
  intros H.
  destruct (H [midLoad] (n 0) (n 5) pin fixed) as [HA _].
  specialize (HA ltac:(discriminate)).
  vm_compute in HA. discriminate HA.
Qed.

(** *** Equilibrium *)

(** C1, at two point loads of 50 at 1 and 4 on a span from 0 to 5 between a
    pin and a roller: the code returns the reactions of the second load
    alone, 10 and 40, while the applied force is 100 and its moment about
    the start support is 250.  Neither sign convention balances the forces,
    and the moment of [reactionB] about the start support is 200. *)
Theorem two_point_loads_not_in_equilibrium :
  let r := calculateReactions twoPointLoads (n 0) (n 5) pin roller in
  r = {| reactionA := n 10; reactionB := n 40;
         momentA := n 0; momentB := n 0 |}
  /\ Spec.appliedForce twoPointLoads = n 100
  /\ reactionA r + reactionB r + Spec.appliedForce twoPointLoads = n 150
  /\ reactionA r + reactionB r - Spec.appliedForce twoPointLoads = n (-50)
  /\ Spec.appliedMomentAbout (n 0) twoPointLoads = n 250
  /\ reactionB r * (n 5 - n 0) = n 200.
Proof.
  vm_compute. repeat split; reflexivity.
Qed.

(** *** Last load wins *)

Lemma fold_left_last_step :
  forall (A B : Type) (f : A -> B -> A) (g : B -> bool) (c : B -> A),
    (forall a b, g b = false -> f a b = a) ->
    (forall a b, g b = true -> f a b = c b) ->
    forall (l : list B) (b : B) (a0 : A),
      find g (rev l) = Some b ->
      fold_left f l a0 = c b.
Proof.
  intros A B f g c Hskip Hset l.
  induction l as [|x l IH] using rev_ind; intros b a0 Hfind.
  - discriminate Hfind.
  - rewrite rev_app_distr in Hfind. simpl in Hfind.
    rewrite fold_left_app. simpl.
    destruct (g x) eqn:Hx.
    + injection Hfind as <-. apply Hset, Hx.
    + rewrite (Hskip _ _ Hx). apply IH, Hfind.
Qed.

Lemma reaction_step_skip :
  forall sA sB span rr l,
    Spec.assigns sA sB l = false -> reaction_step sA sB span rr l = rr.
Proof.
  intros sA sB span rr l H.
  unfold Spec.assigns, Spec.inSpan in H. unfold reaction_step.
  destruct ((position l <? sA) || (position l >? sB)); [reflexivity|].
  simpl in H.
  destruct (type l); try discriminate H; try reflexivity.
  destruct (length l) as [len|]; simpl in H; [rewrite H|]; reflexivity.
Qed.

Lemma reaction_step_assign :
  forall sA sB span rr l,
    Spec.assigns sA sB l = true ->
    reaction_step sA sB span rr l = assigned sA sB span l.
Proof.
  intros sA sB span rr l H.
  unfold Spec.assigns, Spec.inSpan in H. unfold assigned, reaction_step.
  destruct ((position l <? sA) || (position l >? sB)); [discriminate H|].
  simpl in H.
  destruct (type l); try discriminate H; try reflexivity.
  destruct (length l) as [len|]; simpl in H; [rewrite H|discriminate H];
    reflexivity.
Qed.

Lemma primaryReactions_last :
  forall loads sA sB span l,
    Spec.lastAssigning sA sB loads = Some l ->
    primaryReactions loads sA sB span = assigned sA sB span l.
Proof.
  intros loads sA sB span l H. unfold primaryReactions.
  apply fold_left_last_step with (g := Spec.assigns sA sB); auto.
  - intros; now apply reaction_step_skip.
  - intros; now apply reaction_step_assign.
Qed.

(** C2, amended. The primary reactions are those computed from one load
    alone: the last load in the span that is a point load, a moment, or a
    distributed load with a non-zero [length]; earlier loads are discarded.
    With no fixed support the whole record returned by [calculateReactions]
    is the one of that load alone. *)
Theorem last_assigning_load_wins :
  forall (loads : list Load) (sA sB : num) (l : Load),
    Spec.lastAssigning sA sB loads = Some l ->
    (forall span,
        primaryReactions loads sA sB span = primaryReactions [l] sA sB span)
    /\ (forall kA kB, kA <> fixed -> kB <> fixed ->
          calculateReactions loads sA sB kA kB
          = calculateReactions [l] sA sB kA kB).
Proof.
  intros loads sA sB l H.
  assert (Hl : Spec.assigns sA sB l = true).
  { unfold Spec.lastAssigning in H. apply find_some in H. apply H. }
  assert (P : forall span,
             primaryReactions loads sA sB span
             = primaryReactions [l] sA sB span).
  { intros span. rewrite (primaryReactions_last loads sA sB span l H).
    symmetry. apply primaryReactions_last.
    unfold Spec.lastAssigning. simpl. now rewrite Hl. }
  split; [exact P|].
  intros kA kB HA HB. unfold calculateReactions, fixedEndMoments.
  assert (EA : SupportType_eqb kA fixed = false)
    by now apply not_fixed.
  assert (EB : SupportType_eqb kB fixed = false)
    by now apply not_fixed.
  rewrite EA, EB, P. reflexivity.
Qed.

Lemma last_assigning_load_wins_witness :
  primaryReactions torsionLast (n 0) (n 5) (n 5)
  = primaryReactions [midLoad] (n 0) (n 5) (n 5)
  /\ calculateReactions torsionLast (n 0) (n 5) pin roller
     = calculateReactions [midLoad] (n 0) (n 5) pin roller.
Proof.
  assert (H : Spec.lastAssigning (n 0) (n 5) torsionLast = Some midLoad)
    by (vm_compute; reflexivity).
  destruct (last_assigning_load_wins torsionLast (n 0) (n 5) midLoad H)
    as [P R].
  split; [apply P | apply R; discriminate].
Defined.

(** C2, as stated, fails: a torsion load placed in the span after a point
    load is the last load in the span, and leaves the reactions of the
    point load in place. *)
Lemma last_in_span_counterexample : ~ Spec.lastInSpanWins.
Proof.
  intros H.
  specialize (H torsionLast (n 0) (n 5) (mkLoad 2 torsion (n 1) (n 10) None)).
  assert (H2 : (2 <= List.length
                      (filter (Spec.inSpan (n 0) (n 5)) torsionLast))%nat)
    by (vm_compute; lia).
  specialize (H H2 ltac:(vm_compute; reflexivity)).
  vm_compute in H. discriminate H.
Qed.

(** *** A distributed load without length *)

Lemma fold_left_skip_one :
  forall (A B : Type) (f : A -> B -> A) (b : B),
    (forall a, f a b = a) ->
    forall (l1 l2 : list B) (a0 : A),
      fold_left f (l1 ++ b :: l2) a0 = fold_left f (l1 ++ l2) a0.
Proof.
  intros A B f b Hb l1 l2 a0.
  rewrite !fold_left_app. simpl. now rewrite Hb.
Qed.

Section FalsyLength.

Variable load : Load.
Hypothesis Htype : type load = distributed.
Hypothesis Hfalsy : truthy_opt (length load) = false.

Lemma fem_step_falsy :
  forall sA sB span mm, fem_step sA sB span mm load = mm.
Proof.
  intros. unfold fem_step. rewrite Htype. reflexivity.
Qed.

Lemma reaction_step_falsy :
  forall sA sB span rr, reaction_step sA sB span rr load = rr.
Proof.
  intros. apply reaction_step_skip. unfold Spec.assigns.
  rewrite Htype, Hfalsy. apply andb_false_r.
Qed.

Lemma shear_step_falsy : forall x s, shear_step x s load = s.
Proof.
  intros. unfold shear_step. rewrite Htype.
  destruct (position load >? x); [reflexivity|].
  destruct (length load) as [len|]; simpl in Hfalsy;
    [rewrite Hfalsy|]; reflexivity.
Qed.

Lemma moment_step_falsy : forall x m, moment_step x m load = m.
Proof.
  intros. unfold moment_step. rewrite Htype.
  destruct (position load >? x); [reflexivity|].
  destruct (length load) as [len|]; simpl in Hfalsy;
    [rewrite Hfalsy|]; reflexivity.
Qed.

Lemma calculateReactions_falsy :
  forall before after sA sB kA kB,
    calculateReactions (before ++ load :: after) sA sB kA kB
    = calculateReactions (before ++ after) sA sB kA kB.
Proof.
  intros. unfold calculateReactions, fixedEndMoments, primaryReactions.
  rewrite (fold_left_skip_one _ _ (fem_step sA sB (sB - sA)) load)
    by (intros; apply fem_step_falsy).
  rewrite (fold_left_skip_one _ _ (reaction_step sA sB (sB - sA)) load)
    by (intros; apply reaction_step_falsy).
  reflexivity.
Qed.

Lemma calculateShear_falsy :
  forall before after sA sB r x,
    calculateShear (before ++ load :: after) sA sB r x
    = calculateShear (before ++ after) sA sB r x.
Proof.
  intros. unfold calculateShear.
  rewrite (fold_left_skip_one _ _ (shear_step x) load)
    by (intros; apply shear_step_falsy).
  reflexivity.
Qed.

Lemma calculateMoment_falsy :
  forall before after sA sB kA r x,
    calculateMoment (before ++ load :: after) sA sB kA r x
    = calculateMoment (before ++ after) sA sB kA r x.
Proof.
  intros. unfold calculateMoment.
  rewrite (fold_left_skip_one _ _ (moment_step x) load)
    by (intros; apply moment_step_falsy).
  reflexivity.
Qed.

End FalsyLength.

(** C10. A distributed load whose [length] is absent ([undefined]) or 0 is
    skipped: the reactions, the shear and the moment at every position are
    those of the load set without it, wherever it stands in the list and
    whatever the supports and the reactions in the state are. *)
Theorem distributed_without_length_ignored :
  forall (before after : list Load) (load : Load)
         (sA sB : num) (kA kB : SupportType) (r : Reactions) (x : num),
    type load = distributed ->
    length load = None \/ length load = Some zero ->
    calculateReactions (before ++ load :: after) sA sB kA kB
    = calculateReactions (before ++ after) sA sB kA kB
    /\ calculateShear (before ++ load :: after) sA sB r x
       = calculateShear (before ++ after) sA sB r x
    /\ calculateMoment (before ++ load :: after) sA sB kA r x
       = calculateMoment (before ++ after) sA sB kA r x.
Proof.
  intros before after load sA sB kA kB r x Htype Hlen.
  assert (Hfalsy : truthy_opt (length load) = false)
    by (destruct Hlen as [-> | ->]; reflexivity).
  split; [|split].
  - now apply calculateReactions_falsy.
  - now apply calculateShear_falsy.
  - now apply calculateMoment_falsy.
Qed.

Lemma distributed_without_length_ignored_witness :
  calculateReactions ([midLoad] ++ emptyDistributed :: []) (n 0) (n 5)
    pin roller
  = calculateReactions ([midLoad] ++ []) (n 0) (n 5) pin roller
  /\ calculateShear ([midLoad] ++ emptyDistributed :: []) (n 0) (n 5)
       zeroReactions (n 3)
     = calculateShear ([midLoad] ++ []) (n 0) (n 5) zeroReactions (n 3)
  /\ calculateMoment ([midLoad] ++ emptyDistributed :: []) (n 0) (n 5) pin
       zeroReactions (n 3)
     = calculateMoment ([midLoad] ++ []) (n 0) (n 5) pin zeroReactions (n 3).
Proof.
  apply (distributed_without_length_ignored [midLoad] [] emptyDistributed).
  - reflexivity.
  - right. reflexivity.
Defined.

(** *** Validation *)

Lemma ltb_negb_leb :
  forall a b, isNaN a = false -> isNaN b = false -> (a <? b) = negb (b <=? a).
Proof.
  intros [| | |p] [| | |q] Ha Hb; try discriminate; reflexivity.
Qed.

(** C6, amended. [validateLoad] is total and returns a structured result, a
    message being present exactly when the result is invalid.  The result is
    valid exactly when: the position is not [NaN], is [>= 0] and is not
    above the beam length; the magnitude is not [NaN]; and, for a
    distributed load, the length is present, not [NaN], [> 0], and
    [position + length] is not above the beam length.  The beam length
    itself is not checked and infinite values are not rejected. *)
Theorem validateLoad_valid_iff :
  forall (load : Load) (beamLength : num),
    let r := Utils.validateLoad load beamLength in
    (Utils.isValid r = true <->
       isNaN (position load) = false
       /\ (zero <=? position load) = true
       /\ (position load >? beamLength) = false
       /\ isNaN (magnitude load) = false
       /\ (type load = distributed ->
           exists len,
             length load = Some len /\ isNaN len = false
             /\ (len >? zero) = true
             /\ (position load + len >? beamLength) = false))
    /\ (Utils.isValid r = false <-> exists m, Utils.message r = Some m).
Proof.
  intros load bl. unfold Utils.validateLoad.
  destruct (isNaN (position load)) eqn:E1; step.
  { reject. intros (H & _); discriminate H. }
  assert (E2 : (position load <? zero) = negb (zero <=? position load))
    by (apply ltb_negb_leb; [exact E1 | reflexivity]).
  rewrite E2.
  destruct (zero <=? position load) eqn:E3; step.
  2:{ reject. intros (_ & H & _); discriminate H. }
  destruct (position load >? bl) eqn:E4; step.
  { reject. intros (_ & _ & H & _); discriminate H. }
  destruct (isNaN (magnitude load)) eqn:E5; step.
  { reject. intros (_ & _ & _ & H & _); discriminate H. }
  destruct (type load) eqn:Et; step;
    try (split; split; try discriminate; try reflexivity;
         [ intros _; repeat split; auto; discriminate
         | intros (m & H); discriminate H ]).
  destruct (length load) as [len|] eqn:El; step.
  2:{ reject. intros (_ & _ & _ & _ & H).
      destruct (H eq_refl) as (len & H' & _). discriminate H'. }
  destruct (isNaN len) eqn:E6; step.
  { reject. intros (_ & _ & _ & _ & H).
    destruct (H eq_refl) as (l' & H' & N & _).
    injection H' as <-. congruence. }
  assert (E7 : (len >? zero) = negb (len <=? zero))
    by (apply ltb_negb_leb; [reflexivity | exact E6]).
  destruct (len <=? zero) eqn:E8; step.
  { reject. intros (_ & _ & _ & _ & H).
    destruct (H eq_refl) as (l' & H' & _ & G & _).
    injection H' as <-. rewrite E7 in G. discriminate G. }
  destruct (position load + len >? bl) eqn:E9; step.
  { reject. intros (_ & _ & _ & _ & H).
    destruct (H eq_refl) as (l' & H' & _ & _ & G).
    injection H' as <-. congruence. }
  split; split; try discriminate; try reflexivity.
  - intros _. repeat split; auto. intros _. exists len. rewrite E7. auto.
  - intros (m & H); discriminate H.
Qed.

(** C6, as stated, fails: a load at position 0 on a beam of length 0 is
    accepted, and so is an infinite magnitude. *)
Lemma validateLoad_counterexample : ~ Spec.validExactlyWhenRulesHold.
Proof.
  intros H.
  specialize (H (mkLoad 1 point (n 0) (n 1) None) (n 0)).
  vm_compute in H. discriminate H.
Qed.

Lemma validateLoad_accepts_infinite_magnitude :
  Utils.isValid (Utils.validateLoad (mkLoad 1 point (n 0) PInf None) (n 5))
  = true
  /\ Spec.rulesHold (mkLoad 1 point (n 0) PInf None) (n 5) = false.
Proof. split; reflexivity. Qed.

(** *** Section properties *)

Lemma mul_comm : forall a b : num, a * b = b * a.
Proof.
  intros [| | |p] [| | |q]; try reflexivity.
  unfold mul. f_equal. apply Qred_complete, Qmult_comm.
Qed.

(** C7. For every width [w] and height [h], [calculateSectionProperties]
    returns the record of the specification: the area [w*h] floored at
    0.001, [I = w*h^3/12], [2*I/h], [(w*h^3 + h*w^3)/12] and the torsional
    constant of the rectangle with [a = max(w,h)] and [b = min(w,h)]. *)
Theorem calculateSectionProperties_formulas :
  forall w h : num,
    calculateSectionProperties h w = Spec.sectionProperties w h.
Proof.
  intros w h. unfold calculateSectionProperties, Spec.sectionProperties.
  unfold Spec.epsilon. rewrite (mul_comm h w). reflexivity.
Qed.

(** *** Degenerate cross-section *)

Lemma Qzerob_iff : forall q, Qzerob q = true <-> q == 0.
Proof.
  intros [a d]. unfold Qzerob, Qeq. simpl. rewrite Z.eqb_eq. lia.
Qed.

Lemma Qzerob_Qred : forall q, Qzerob q = true -> Qzerob (Qred q) = true.
Proof.
  intros q H. apply Qzerob_iff. rewrite Qred_correct. now apply Qzerob_iff.
Qed.

Lemma zeroish_zero : zeroish zero.
Proof. reflexivity. Qed.

Lemma mul_zeroish_l : forall a b, zeroish a -> zeroish (a * b).
Proof.
  intros [| | |p] [| | |q] H; simpl in H; try contradiction; try exact I;
    unfold mul, inf_times; try rewrite H; try exact I.
  apply Qzerob_Qred, Qzerob_iff. apply Qzerob_iff in H. rewrite H.
  apply Qmult_0_l.
Qed.

Lemma mul_zeroish_r : forall a b, zeroish b -> zeroish (a * b).
Proof.
  intros a b H. rewrite mul_comm. now apply mul_zeroish_l.
Qed.

Lemma abs_zeroish : forall a, zeroish a -> zeroish (Math_abs a).
Proof.
  intros [| | |p] H; simpl in H; try contradiction; try exact I.
  unfold Math_abs. apply Qzerob_Qred, Qzerob_iff. apply Qzerob_iff in H.
  rewrite H. reflexivity.
Qed.

Lemma div_zeroish_finite :
  forall a q, zeroish a -> Qzerob q = false -> zeroish (a / Fin q).
Proof.
  intros [| | |p] q H Hq; simpl in H; try contradiction; try exact I.
  unfold div. rewrite Hq. apply Qzerob_Qred, Qzerob_iff.
  apply Qzerob_iff in H. rewrite H. unfold Qdiv. apply Qmult_0_l.
Qed.

Lemma div_zeroish_zeroish : forall a b, zeroish a -> zeroish b -> a / b = NaN.
Proof.
  intros [| | |p] [| | |q] Ha Hb; simpl in Ha, Hb; try contradiction;
    try reflexivity.
  unfold div. now rewrite Hb, Ha.
Qed.

Lemma div_NaN_r : forall a, a / NaN = NaN.
Proof. intros [| | |p]; reflexivity. Qed.

Lemma pow3_zero : Math_pow zero 3 = zero.
Proof. reflexivity. Qed.

Section Degenerate.

Variable qw : Q.

Lemma momentOfInertia_degenerate :
  zeroish (momentOfInertia (calculateSectionProperties zero (Fin qw))).
Proof.
  unfold calculateSectionProperties. cbv zeta.
  cbn [momentOfInertia]. rewrite pow3_zero.
  apply div_zeroish_finite; [|reflexivity].
  apply mul_zeroish_r, zeroish_zero.
Qed.

Lemma sectionModulus_degenerate :
  sectionModulus (calculateSectionProperties zero (Fin qw)) = NaN.
Proof.
  generalize momentOfInertia_degenerate.
  unfold calculateSectionProperties. cbv zeta.
  cbn [momentOfInertia sectionModulus]. intros H.
  apply div_zeroish_zeroish; [|apply zeroish_zero].
  now apply mul_zeroish_r.
Qed.

Lemma width_times_cube_zeroish :
  zeroish (Math_max (Fin qw) zero * Math_pow (Math_min (Fin qw) zero) 3).
Proof.
  unfold Math_max, Math_min, zero.
  destruct (Fin qw <? Fin 0) eqn:Hneg.
  - apply mul_zeroish_l. reflexivity.
  - destruct (Fin 0 <? Fin qw) eqn:Hpos.
    + apply mul_zeroish_r. reflexivity.
    + apply mul_zeroish_l. unfold ltb, Qltb in Hneg, Hpos.
      apply negb_false_iff in Hneg, Hpos.
      apply Qle_bool_iff in Hneg, Hpos.
      apply Qzerob_iff. now apply Qle_antisym.
Qed.

Lemma torsionalConstant_degenerate :
  zeroish (torsionalConstant (calculateSectionProperties zero (Fin qw))).
Proof.
  unfold calculateSectionProperties. cbv zeta.
  cbn [torsionalConstant].
  apply mul_zeroish_l, width_times_cube_zeroish.
Qed.

End Degenerate.

(** C8, at a cross-section of height 0 and any finite width: whatever the
    loads, the supports, the reactions and the position, the four stresses
    returned by [calculateStresses] are [NaN].  The clamp of
    [calculateSectionProperties] is on [area], which no stress reads; the
    divisors [sectionModulus], [momentOfInertia * beamWidth] and
    [2 * torsionalConstant] are 0 or [NaN]. *)
Theorem zero_height_stresses_are_NaN :
  forall (sqrtQ : Q -> Q) (qw : Q) (loads : list Load) (sA sB : num)
         (kA : SupportType) (r : Reactions) (x : num),
    calculateStresses sqrtQ zero (Fin qw) loads sA sB kA r x = Spec.allNaN.
Proof.
  intros sqrtQ qw loads sA sB kA r x.
  unfold calculateStresses. cbv zeta.
  rewrite sectionModulus_degenerate, div_NaN_r.
  rewrite (div_zeroish_zeroish
             (Math_abs (calculateShear loads sA sB r x
                        * (Fin qw * zero * zero / lit 8 1)))).
  - rewrite (div_zeroish_zeroish
               (Math_abs (calculateTorsion loads sA sB x * zero))).
    + reflexivity.
    + apply abs_zeroish, mul_zeroish_r, zeroish_zero.
    + apply mul_zeroish_r, torsionalConstant_degenerate.
  - apply abs_zeroish, mul_zeroish_r.
    apply div_zeroish_finite; [|reflexivity].
    apply mul_zeroish_r, zeroish_zero.
  - apply mul_zeroish_l, momentOfInertia_degenerate.
Qed.

(** The same at the sample load: the stresses at midspan of a beam of
    height 0 and width 0.1; at width 0 and height 0.2 the normal stress is
    infinite. *)
Lemma zero_height_stresses_sample :
  forall sqrtQ,
    let r := calculateReactions [midLoad] (n 0) (n 5) pin roller in
    calculateStresses sqrtQ (n 0) (lit 1 10) [midLoad] (n 0) (n 5) pin r
      (lit 5 2) = Spec.allNaN
    /\ normalStress
         (calculateStresses sqrtQ (lit 1 5) (n 0) [midLoad] (n 0) (n 5) pin r
            (lit 5 2)) = PInf.
Proof.
  intros sqrtQ. split; reflexivity.
Qed.

(** *** Diagram positions *)

Section Rounding.

Local Open Scope Q_scope.

Lemma Qabs_nonneg_eq : forall x, 0 <= x -> Qabs x = x.
Proof.
  intros [a d] H. unfold Qabs. f_equal. apply Z.abs_eq.
  unfold Qle in H. simpl in H. lia.
Qed.

Lemma Qnegb_nonneg : forall x, 0 <= x -> Qnegb x = false.
Proof.
  intros [a d] H. unfold Qnegb. simpl. apply Z.ltb_ge.
  unfold Qle in H. simpl in H. lia.
Qed.

Lemma QtoFixed_nonneg :
  forall d x, 0 <= x ->
    QtoFixed d x = if Qle_bool (Qpow10 21) x then x else Qround d x.
Proof.
  intros d x H. unfold QtoFixed, Qround.
  rewrite (Qabs_nonneg_eq x H), (Qnegb_nonneg x H). reflexivity.
Qed.

Lemma Qround3_le : forall x, Qround 3 x <= x + (1 # 2000).
Proof.
  intros x. unfold Qround.
  pose proof (Qfloor_le (x * Qpow10 3 + (1 # 2))) as H.
  change (Qpow10 3) with (1000 # 1) in *.
  set (f := inject_Z (Qfloor (x * (1000 # 1) + (1 # 2)))) in *.
  unfold Qdiv. change (/ (1000 # 1)) with (1 # 1000). lra.
Qed.

Lemma Qfloor_succ_le : forall x y, x + 1 <= y -> (Qfloor x + 1 <= Qfloor y)%Z.
Proof.
  intros x y H.
  rewrite <- (Qfloor_Z (Qfloor x + 1)). apply Qfloor_resp_le.
  rewrite inject_Z_plus. pose proof (Qfloor_le x).
  change (inject_Z 1) with 1. lra.
Qed.

Lemma Qround3_lt :
  forall a b, a + (1 # 1000) <= b -> Qround 3 a < Qround 3 b.
Proof.
  intros a b H. unfold Qround. change (Qpow10 3) with (1000 # 1).
  assert (F : (Qfloor (a * (1000 # 1) + (1 # 2)) + 1
               <= Qfloor (b * (1000 # 1) + (1 # 2)))%Z).
  { apply Qfloor_succ_le. lra. }
  set (fa := Qfloor (a * (1000 # 1) + (1 # 2))) in *.
  set (fb := Qfloor (b * (1000 # 1) + (1 # 2))) in *.
  unfold Qdiv. change (/ (1000 # 1)) with (1 # 1000).
  assert (inject_Z fa + 1 <= inject_Z fb).
  { change 1 with (inject_Z 1). rewrite <- inject_Z_plus.
    now rewrite <- Zle_Qle. }
  lra.
Qed.

Lemma QtoFixed3_lt :
  forall a b, 0 <= a -> a + (1 # 1000) <= b -> QtoFixed 3 a < QtoFixed 3 b.
Proof.
  intros a b Ha H.
  assert (Hb : 0 <= b) by lra.
  rewrite (QtoFixed_nonneg 3 a Ha), (QtoFixed_nonneg 3 b Hb).
  destruct (Qle_bool (Qpow10 21) a) eqn:Ea.
  - apply Qle_bool_iff in Ea.
    assert (Eb : Qle_bool (Qpow10 21) b = true) by (apply Qle_bool_iff; lra).
    rewrite Eb. lra.
  - destruct (Qle_bool (Qpow10 21) b) eqn:Eb.
    + pose proof (Qround3_le a). lra.
    + now apply Qround3_lt.
Qed.

End Rounding.

Section RoundingError.

Local Open Scope Q_scope.

Lemma Qnegb_iff : forall x, Qnegb x = true <-> x < 0.
Proof.
  intros [a d]. unfold Qnegb, Qlt. cbn [Qnum Qden]. rewrite Z.ltb_lt. lia.
Qed.

Lemma Qnegb_compat : forall p q, p == q -> Qnegb p = Qnegb q.
Proof.
  intros p q E. destruct (Qnegb p) eqn:Hp, (Qnegb q) eqn:Hq; try reflexivity.
  - apply Qnegb_iff in Hp. rewrite E in Hp. apply Qnegb_iff in Hp. congruence.
  - apply Qnegb_iff in Hq. rewrite <- E in Hq. apply Qnegb_iff in Hq.
    congruence.
Qed.

Lemma QtoFixed_compat :
  forall d p q, p == q -> QtoFixed d p == QtoFixed d q.
Proof.
  intros d p q E. unfold QtoFixed.
  assert (E1 : Qle_bool (Qpow10 21) (Qabs p) = Qle_bool (Qpow10 21) (Qabs q))
    by now rewrite E.
  assert (E2 : Qfloor (Qabs p * Qpow10 d + (1 # 2))
               = Qfloor (Qabs q * Qpow10 d + (1 # 2))) by now rewrite E.
  rewrite E1, E2, (Qnegb_compat p q E).
  destruct (Qle_bool (Qpow10 21) (Qabs q)); [exact E|reflexivity].
Qed.

Lemma Qround3_ge : forall x, x - (1 # 2000) <= Qround 3 x.
Proof.
  intros x. unfold Qround.
  pose proof (Qlt_floor (x * Qpow10 3 + (1 # 2))) as H.
  change (Qpow10 3) with (1000 # 1) in *.
  rewrite inject_Z_plus in H. change (inject_Z 1) with 1 in H.
  set (f := inject_Z (Qfloor (x * (1000 # 1) + (1 # 2)))) in *.
  unfold Qdiv. change (/ (1000 # 1)) with (1 # 1000). lra.
Qed.

Lemma Qabs_nonpos_eq : forall x, x <= 0 -> Qabs x = - x.
Proof.
  intros [a d] H. unfold Qabs, Qopp. f_equal. apply Z.abs_neq.
  unfold Qle in H. cbn [Qnum Qden] in *. lia.
Qed.

(** Rounding moves a value by at most half a thousandth. *)
Lemma QtoFixed3_error :
  forall x, - (1 # 2000) <= QtoFixed 3 x - x <= 1 # 2000.
Proof.
  intros x. unfold QtoFixed.
  destruct (Qle_bool (Qpow10 21) (Qabs x)); [lra|].
  fold (Qround 3 (Qabs x)).
  pose proof (Qround3_le (Qabs x)) as U.
  pose proof (Qround3_ge (Qabs x)) as L.
  destruct (Qnegb x) eqn:N.
  - apply Qnegb_iff in N. rewrite (Qabs_nonpos_eq x) in * by lra. lra.
  - assert (0 <= x).
    { destruct (Qlt_le_dec x 0) as [C|C]; [|exact C].
      apply Qnegb_iff in C. congruence. }
    rewrite (Qabs_nonneg_eq x) in * by assumption. lra.
Qed.

End RoundingError.

Lemma sample_position :
  forall q i,
    toFixed 3 (of_nat i * (Fin q / of_nat 100))
    = Fin (Qred (QtoFixed 3 (station q i))).
Proof. reflexivity. Qed.

Lemma station_eq :
  forall q i, (station q i == inject_Z (Z.of_nat i) * (q * (1 # 100)))%Q.
Proof.
  intros q i. unfold station. rewrite !Qred_correct.
  unfold Qdiv. change (/ inject_Z 100)%Q with (1 # 100)%Q. reflexivity.
Qed.

Lemma station_succ :
  forall q i, (station q (S i) == station q i + q * (1 # 100))%Q.
Proof.
  intros q i. rewrite !station_eq, Nat2Z.inj_succ.
  unfold Z.succ. rewrite inject_Z_plus. change (inject_Z 1) with 1%Q. ring.
Qed.

Lemma station_nonneg : forall q i, (0 <= q)%Q -> (0 <= station q i)%Q.
Proof.
  intros q i Hq. rewrite station_eq.
  apply Qmult_le_0_compat.
  - change 0%Q with (inject_Z 0). rewrite <- Zle_Qle. lia.
  - lra.
Qed.

Lemma utilsPositions_eq :
  forall q loads,
    Spec.utilsPositions (Fin q) loads
    = map (fun i => Fin (Qred (QtoFixed 3 (station q i)))) (seq 0 101).
Proof.
  intros q loads. unfold Spec.utilsPositions, Utils.generateDiagramData.
  rewrite map_map. apply map_ext. intros i. reflexivity.
Qed.

Lemma positions_eq :
  forall sqrtQ bl bh bw loads sA sB kA r,
    Spec.positions sqrtQ bl bh bw loads sA sB kA r
    = Spec.utilsPositions bl loads.
Proof.
  intros. unfold Spec.positions, Spec.utilsPositions.
  unfold generateDiagramData, Utils.generateDiagramData.
  rewrite !map_map. apply map_ext. intros i. reflexivity.
Qed.

Lemma strictlyIncreasing_map_seq :
  forall (f : nat -> num) (len start : nat),
    (forall i, (start <= i)%nat -> (S i < start + len)%nat ->
               (f i <? f (S i)) = true) ->
    Spec.strictlyIncreasing (map f (seq start len)) = true.
Proof.
  intros f len. induction len as [|len IH]; intros start H; [reflexivity|].
  destruct len as [|len]; [reflexivity|].
  change (map f (seq start (S (S len))))
    with (f start :: map f (seq (S start) (S len))).
  change (seq (S start) (S len)) with (S start :: seq (S (S start)) len).
  cbn [map Spec.strictlyIncreasing].
  rewrite (H start) by lia.
  change (f (S start) :: map f (seq (S (S start)) len))
    with (map f (seq (S start) (S len))).
  apply IH. intros i Hi Hj. apply H; lia.
Qed.

Lemma ltb_Fin : forall p q, (p < q)%Q -> (Fin p <? Fin q) = true.
Proof.
  intros p q H. unfold ltb, Qltb. apply negb_true_iff.
  destruct (Qle_bool q p) eqn:E; [|reflexivity].
  apply Qle_bool_iff in E. lra.
Qed.

Lemma station_rounded_lt :
  forall q i, (1 # 10 <= q)%Q ->
    (Fin (Qred (QtoFixed 3 (station q i)))
     <? Fin (Qred (QtoFixed 3 (station q (S i))))) = true.
Proof.
  intros q i Hq. apply ltb_Fin. apply Qred_lt.
  apply QtoFixed3_lt.
  - apply station_nonneg. lra.
  - rewrite station_succ. lra.
Qed.

Lemma nth_map_seq :
  forall (f : nat -> num) (len i : nat),
    (i < len)%nat -> nth i (map f (seq 0 len)) NaN = f i.
Proof.
  intros f len i H.
  rewrite (nth_indep _ NaN (f 0%nat)) by (now rewrite length_map, length_seq).
  rewrite map_nth. now rewrite seq_nth.
Qed.

(** C9, amended. For every finite beam length of at least 0.1, every
    geometry, load list and support state, [generateDiagramData] returns 101
    points (the station count is the constant 100), the same positions in
    the component and in the utility module; the positions are strictly
    increasing and start at 0.  The last position is [100 * (beamLength /
    100)] rounded to 3 decimals, which lies within 0.001 of the beam length
    for the beam lengths up to 10^6. *)
Theorem diagram_positions :
  forall (sqrtQ : Q -> Q) (q : Q) (beamHeight beamWidth : num)
         (loads : list Load) (sA sB : num) (kA : SupportType) (r : Reactions),
    (1 # 10 <= q)%Q ->
    let ps := Spec.positions sqrtQ (Fin q) beamHeight beamWidth loads
                sA sB kA r in
    ps = Spec.utilsPositions (Fin q) loads
    /\ List.length ps = 101%nat
    /\ Spec.strictlyIncreasing ps = true
    /\ nth 0 ps NaN = zero
    /\ nth 100 ps NaN = toFixed 3 (of_nat 100 * (Fin q / of_nat 100))
    /\ ((q <= 1000000)%Q ->
        exists e : Q,
          nth 100 ps NaN = Fin e
          /\ (- (1 # 1000) <= e - q <= 1 # 1000)%Q).
Proof.
  intros sqrtQ q bh bw loads sA sB kA r Hq ps.
  assert (E : ps = Spec.utilsPositions (Fin q) loads) by apply positions_eq.
  split; [exact E|]. rewrite E, utilsPositions_eq.
  split; [now rewrite length_map, length_seq|].
  split; [|split; [|split]].
  - apply strictlyIncreasing_map_seq. intros i _ _.
    now apply station_rounded_lt.
  - rewrite nth_map_seq by lia. reflexivity.
  - rewrite nth_map_seq by lia. reflexivity.
  - intros _. rewrite nth_map_seq by lia.
    exists (Qred (QtoFixed 3 (station q 100))). split; [reflexivity|].
    assert (S : (station q 100 == q)%Q).
    { rewrite station_eq. change (inject_Z (Z.of_nat 100)) with (100 # 1)%Q.
      field. }
    rewrite Qred_correct, (QtoFixed_compat 3 _ _ S).
    pose proof (QtoFixed3_error q). lra.
Qed.

Lemma diagram_positions_witness :
  (1 # 10 <= 5)%Q
  /\ (let ps := Spec.positions (fun x => x) (Fin 5) (lit 1 5) (lit 1 10)
                  [midLoad] (n 0) (n 5) pin zeroReactions in
      ps = Spec.utilsPositions (Fin 5) [midLoad]
      /\ List.length ps = 101%nat
      /\ Spec.strictlyIncreasing ps = true
      /\ nth 0 ps NaN = zero
      /\ nth 100 ps NaN = toFixed 3 (of_nat 100 * (Fin 5 / of_nat 100))
      /\ ((5 <= 1000000)%Q ->
          exists e : Q,
            nth 100 ps NaN = Fin e
            /\ (- (1 # 1000) <= e - 5 <= 1 # 1000)%Q)).
Proof.
  assert (H : (1 # 10 <= 5)%Q) by (unfold Qle; simpl; lia).
  split; [exact H|].
  exact (diagram_positions (fun x => x) 5 (lit 1 5) (lit 1 10) [midLoad]
           (n 0) (n 5) pin zeroReactions H).
Defined.

(** C9, as stated, fails: on a beam of length 0.01 the first stations are
    0.0001 apart and round to the same position 0. *)
Lemma diagram_positions_counterexample : ~ Spec.positionsFromZeroToLength.
Proof.
  intros H.
  destruct (H (1 # 100)%Q [] ltac:(reflexivity)) as (_ & Hinc & _).
  vm_compute in Hinc. discriminate Hinc.
Qed.

(** The last position need not be the beam length: it is 0.123 on a beam
    of length 0.12345. *)
Lemma diagram_end_is_rounded :
  nth 100 (Spec.utilsPositions (lit 2469 20000) []) NaN = lit 123 1000.
Proof. vm_compute. reflexivity. Qed.

(* ================================================================== *)
(** ** Order on numbers *)

Lemma Qle_bool_false : forall p q, Qle_bool p q = false <-> (q < p)%Q.
Proof.
  intros p q. split; intros H.
  - apply Qnot_le_lt. intros L. apply Qle_bool_iff in L. congruence.
  - destruct (Qle_bool p q) eqn:E; [|reflexivity].
    apply Qle_bool_iff in E. lra.
Qed.

Lemma Qltb_true : forall p q, Qltb p q = true <-> (p < q)%Q.
Proof.
  intros p q. unfold Qltb. rewrite negb_true_iff. apply Qle_bool_false.
Qed.

Lemma Qltb_false : forall p q, Qltb p q = false <-> (q <= p)%Q.
Proof.
  intros p q. unfold Qltb. rewrite negb_false_iff. apply Qle_bool_iff.
Qed.

(** Turns the decided comparisons of rationals into propositions and
    strips the reductions to lowest terms. *)
Ltac qprop :=
  repeat match goal with
  | H : Qle_bool _ _ = true |- _ => apply Qle_bool_iff in H
  | H : Qle_bool _ _ = false |- _ => apply Qle_bool_false in H
  | H : Qltb _ _ = true |- _ => apply Qltb_true in H
  | H : Qltb _ _ = false |- _ => apply Qltb_false in H
  | |- Qle_bool _ _ = true => apply Qle_bool_iff
  | |- Qle_bool _ _ = false => apply Qle_bool_false
  | |- Qltb _ _ = true => apply Qltb_true
  | |- Qltb _ _ = false => apply Qltb_false
  end;
  repeat match goal with
  | H : context [Qred ?q] |- _ => rewrite (Qred_correct q) in H
  end;
  rewrite ?Qred_correct.

Lemma ltb_not_NaN :
  forall a b, (a <? b) = true -> isNaN a = false /\ isNaN b = false.
Proof. intros [| | |p] [| | |q] H; try discriminate H; split; reflexivity. Qed.

Lemma leb_not_NaN :
  forall a b, (a <=? b) = true -> isNaN a = false /\ isNaN b = false.
Proof. intros [| | |p] [| | |q] H; try discriminate H; split; reflexivity. Qed.

Lemma leb_refl : forall a, isNaN a = false -> (a <=? a) = true.
Proof.
  intros [| | |p] H; try discriminate H; try reflexivity.
  unfold leb. qprop. lra.
Qed.

Lemma ltb_leb : forall a b, (a <? b) = true -> (a <=? b) = true.
Proof.
  intros [| | |p] [| | |q] H; try discriminate H; try reflexivity.
  unfold ltb in H. unfold leb. qprop. lra.
Qed.

Lemma leb_trans :
  forall a b c, (a <=? b) = true -> (b <=? c) = true -> (a <=? c) = true.
Proof.
  intros [| | |p] [| | |q] [| | |r] H1 H2;
    try discriminate H1; try discriminate H2; try reflexivity.
  unfold leb in *. qprop. lra.
Qed.

Lemma ltb_leb_trans :
  forall a b c, (a <? b) = true -> (b <=? c) = true -> (a <? c) = true.
Proof.
  intros [| | |p] [| | |q] [| | |r] H1 H2;
    try discriminate H1; try discriminate H2; try reflexivity.
  unfold leb, ltb in *. qprop. lra.
Qed.

Lemma Math_min_leb_r :
  forall a b, isNaN a = false -> isNaN b = false -> (Math_min a b <=? b) = true.
Proof.
  intros a b Ha Hb. unfold Math_min.
  destruct (b <? a) eqn:E.
  - destruct a, b; try discriminate; now apply leb_refl.
  - rewrite (ltb_negb_leb b a Hb Ha) in E. apply negb_false_iff in E.
    destruct a, b; try discriminate; exact E.
Qed.

Lemma Math_min_leb_l :
  forall a b, isNaN a = false -> isNaN b = false -> (Math_min a b <=? a) = true.
Proof.
  intros a b Ha Hb. unfold Math_min.
  destruct (b <? a) eqn:E.
  - destruct a, b; try discriminate; now apply ltb_leb.
  - destruct a, b; try discriminate; now apply leb_refl.
Qed.

Lemma ltb_Math_min :
  forall a b c,
    (a <? b) = true -> (a <? c) = true -> (a <? Math_min b c) = true.
Proof.
  intros a b c H1 H2. unfold Math_min.
  destruct b, c; try discriminate H1; try discriminate H2;
    try (destruct a; discriminate);
    match goal with |- context [if ?t then _ else _] => destruct t end;
    assumption.
Qed.

(* ================================================================== *)
(** ** Handlers of the component *)

(** X1. The support positions stay ordered under every support move: a move
    that would break [0 <= start < end <= beamLength] is dropped. *)
Theorem handleSupportPositionChange_keeps_order :
  forall (st : UI.State) (p : num) (isStart : bool),
    UI.supportsOrdered st = true ->
    UI.supportsOrdered (UI.handleSupportPositionChange st p isStart) = true.
Proof.
  intros st p isStart H. unfold UI.handleSupportPositionChange.
  unfold UI.supportsOrdered in H.
  apply andb_true_iff in H as [H H3]. apply andb_true_iff in H as [H1 H2].
  destruct isStart.
  - destruct ((p >=? zero) && (p <? UI.endSupportPosition st)) eqn:E.
    + apply andb_true_iff in E as [E1 E2].
      unfold UI.supportsOrdered. cbn [UI.setStartSupportPosition
        UI.startSupportPosition UI.endSupportPosition UI.beamLength].
      unfold geb in E1. now rewrite E1, E2, H3.
    + unfold UI.supportsOrdered. now rewrite H1, H2, H3.
  - destruct ((p >? UI.startSupportPosition st) && (p <=? UI.beamLength st))
      eqn:E.
    + apply andb_true_iff in E as [E1 E2].
      unfold UI.supportsOrdered. cbn [UI.setEndSupportPosition
        UI.startSupportPosition UI.endSupportPosition UI.beamLength].
      unfold gtb in E1. now rewrite E1, E2, H1.
    + unfold UI.supportsOrdered. now rewrite H1, H2, H3.
Qed.


Lemma Math_min_not_NaN :
  forall a b, isNaN (Math_min a b) = false ->
              isNaN a = false /\ isNaN b = false.
Proof.
  intros [| | |p] [| | |q] H; try discriminate H; split; reflexivity.
Qed.

Lemma clipLoad_position :
  forall nl l,
    isNaN (position (UI.clipLoad nl l)) = false ->
    (position (UI.clipLoad nl l) <=? nl) = true.
Proof.
  intros nl l H. cbn [UI.clipLoad position] in *.
  apply Math_min_not_NaN in H as [Ha Hb]. now apply Math_min_leb_r.
Qed.

(** X2. A change of beam length to a positive value keeps the loads in number
    and order, with their ids, types and magnitudes; afterwards the beam
    has the new length and no load or end support lies beyond it (a
    position that is [NaN] stays [NaN]). *)
Theorem handleBeamLengthChange_clips :
  forall (st : UI.State) (newLength : num),
    (newLength >? zero) = true ->
    let st' := UI.handleBeamLengthChange st newLength in
    UI.beamLength st' = newLength
    /\ map id (UI.loads st') = map id (UI.loads st)
    /\ map type (UI.loads st') = map type (UI.loads st)
    /\ map magnitude (UI.loads st') = map magnitude (UI.loads st)
    /\ Forall (fun l => isNaN (position l) = false ->
                        (position l <=? newLength) = true) (UI.loads st')
    /\ (isNaN (UI.endSupportPosition st) = false ->
        (UI.endSupportPosition st' <=? newLength) = true).
Proof.
  intros st nl H st'. subst st'. unfold UI.handleBeamLengthChange.
  rewrite H. cbn [UI.beamLength UI.loads UI.endSupportPosition].
  rewrite !map_map. cbn [UI.clipLoad id type magnitude].
  repeat split; try reflexivity.
  - apply Forall_forall. intros l' Hin. apply in_map_iff in Hin.
    destruct Hin as (l & <- & _). apply clipLoad_position.
  - intros He. apply Math_min_leb_r; [exact He|].
    unfold gtb in H. now apply ltb_not_NaN in H.
Qed.

(** A beam length that is not positive ([NaN] included) is dropped. *)
Lemma handleBeamLengthChange_rejects :
  forall st newLength,
    (newLength >? zero) = false ->
    UI.handleBeamLengthChange st newLength = st.
Proof.
  intros st nl H. unfold UI.handleBeamLengthChange. now rewrite H.
Qed.

(** X3. The supports stay ordered under a change of beam length as long as the
    new length is beyond the start support. *)
Theorem handleBeamLengthChange_keeps_order :
  forall (st : UI.State) (newLength : num),
    UI.supportsOrdered st = true ->
    (UI.startSupportPosition st <? newLength) = true ->
    UI.supportsOrdered (UI.handleBeamLengthChange st newLength) = true.
Proof.
  intros st nl H Hs. unfold UI.supportsOrdered in H.
  apply andb_true_iff in H as [H H3]. apply andb_true_iff in H as [H1 H2].
  assert (Hpos : (nl >? zero) = true).
  { unfold gtb. destruct (leb_not_NaN _ _ H1) as [_ N1].
    destruct (ltb_not_NaN _ _ Hs) as [_ N2].
    rewrite (ltb_negb_leb zero nl eq_refl N2). apply negb_true_iff.
    destruct (nl <=? zero) eqn:E; [|reflexivity].
    assert (C : (UI.startSupportPosition st <? zero) = true)
      by (eapply ltb_leb_trans; eauto).
    rewrite (ltb_negb_leb _ zero N1 eq_refl), H1 in C. discriminate C. }
  unfold UI.handleBeamLengthChange. rewrite Hpos.
  unfold UI.supportsOrdered.
  cbn [UI.startSupportPosition UI.endSupportPosition UI.beamLength].
  rewrite H1, (ltb_Math_min _ _ _ H2 Hs). cbn [andb].
  apply Math_min_leb_r.
  - now apply ltb_not_NaN in H2.
  - now apply ltb_not_NaN in Hs.
Qed.

(** X4. A load with a truthy length that starts within the new beam length
    keeps its position, and its length is cut with [Math.min] to the
    remaining length [newLength - position] as the code computes that
    difference: the new length is at most the computed difference and at
    most the old length, and it is not negative when the old length was
    positive. *)
Theorem clipLoad_cuts_length :
  forall (l : Load) (p n : Q) (len : num),
    position l = Fin p -> length l = Some len -> truthy len = true ->
    (p <= n)%Q ->
    exists len',
      length (UI.clipLoad (Fin n) l) = Some len'
      /\ position (UI.clipLoad (Fin n) l) = Fin p
      /\ (len' <=? Fin n - Fin p) = true
      /\ (len' <=? len) = true
      /\ ((zero <? len) = true -> (zero <=? len') = true).
Proof.
  intros l p n len Hp Hl Ht Hle.
  cbn [UI.clipLoad position length]. rewrite Hp, Hl, Ht.
  eexists. split; [reflexivity|].
  assert (Hm : Math_min (Fin p) (Fin n) = Fin p).
  { unfold Math_min, ltb. destruct (Qltb n p) eqn:E; [|reflexivity].
    qprop. lra. }
  rewrite Hm. split; [reflexivity|].
  assert (Hn : isNaN len = false) by (destruct len; [discriminate Ht|..]; reflexivity).
  split; [|split].
  - now apply Math_min_leb_r.
  - now apply Math_min_leb_l.
  - intros Hpos.
    assert (Hd : (zero <=? Fin n - Fin p) = true)
      by (unfold sub, zero, leb; qprop; lra).
    apply ltb_leb in Hpos.
    destruct len as [| | |q]; try discriminate Hn;
      try discriminate Hpos; unfold Math_min;
      match goal with |- context [if ?t then _ else _] => destruct t end;
      assumption.
Qed.

(** X5. A distributed load that starts beyond the new beam length is moved to
    the end of the beam with a negative length: the length is cut against
    the position the load had before the move. *)
Theorem clipLoad_negative_length :
  forall (l : Load) (p n : Q) (len : num),
    position l = Fin p -> length l = Some len -> truthy len = true ->
    (n < p)%Q ->
    exists len',
      length (UI.clipLoad (Fin n) l) = Some len'
      /\ position (UI.clipLoad (Fin n) l) = Fin n
      /\ (len' <? zero) = true.
Proof.
  intros l p n len Hp Hl Ht Hlt.
  cbn [UI.clipLoad position length]. rewrite Hp, Hl, Ht.
  eexists. split; [reflexivity|]. split.
  - unfold Math_min, ltb. destruct (Qltb n p) eqn:E; [reflexivity|].
    qprop. lra.
  - destruct len as [| | |q]; try discriminate Ht.
    + unfold sub, Math_min, ltb, zero. qprop. lra.
    + reflexivity.
    + unfold sub, Math_min, ltb, zero.
      destruct (Qltb (Qred (n - p)) q) eqn:E; qprop; lra.
Qed.


(** *** Adding, removing and updating loads *)

Lemma maxId_bound : forall ls l, In l ls -> (id l <= UI.maxId ls)%Z.
Proof.
  intros ls l H. unfold UI.maxId.
  induction ls as [|x ls IH]; [contradiction|].
  cbn [map fold_right]. destruct H as [<- | H].
  - lia.
  - specialize (IH H). lia.
Qed.

Lemma maxId_nonneg : forall ls, (0 <= UI.maxId ls)%Z.
Proof.
  intros ls. unfold UI.maxId. induction ls; cbn [map fold_right]; lia.
Qed.

Lemma maxId_app :
  forall l1 l2, UI.maxId (l1 ++ l2) = Z.max (UI.maxId l1) (UI.maxId l2).
Proof.
  intros l1 l2. pose proof (maxId_nonneg l2) as N. unfold UI.maxId in *.
  induction l1 as [|x l1 IH]; cbn [app map fold_right].
  - lia.
  - rewrite IH. lia.
Qed.

Lemma maxId_below :
  forall (ls : list Load) (B : Z),
    (0 < B)%Z -> Forall (fun l => (id l < B)%Z) ls -> (UI.maxId ls < B)%Z.
Proof.
  intros ls B HB H. unfold UI.maxId.
  induction H as [|x ls Hx H IH]; cbn [map fold_right]; lia.
Qed.

Lemma succ_id_exact :
  forall z : Z, (z < 2 ^ 53)%Z -> UI.succ_id z = (z + 1)%Z.
Proof.
  intros z H. unfold UI.succ_id.
  destruct (z <? 2 ^ 53)%Z eqn:E; [reflexivity|].
  apply Z.ltb_ge in E. lia.
Qed.

Lemma maxId_addLoad :
  forall ls bl,
    Forall (fun l => (id l < 2 ^ 53)%Z) ls ->
    UI.maxId (UI.addLoad ls bl) = (UI.maxId ls + 1)%Z.
Proof.
  intros ls bl B. unfold UI.addLoad. rewrite maxId_app.
  pose proof (maxId_nonneg ls).
  assert (S : UI.succ_id (UI.maxId ls) = (UI.maxId ls + 1)%Z)
    by (apply succ_id_exact, maxId_below; [lia|exact B]).
  unfold UI.maxId at 2. cbn [map fold_right id]. rewrite S. lia.
Qed.

(** X6. [addLoad] gives the new load the id [Math.max(0, ...ids) + 1].
    While the ids in use are below 2^53, where the increment is exact, the
    new id is positive and above every id in use, so ids that are pairwise
    distinct stay so. *)
Theorem addLoad_fresh_id :
  forall (ls : list Load) (beamLength : num),
    Forall (fun l => (id l < 2 ^ 53)%Z) ls ->
    NoDup (map id ls) ->
    NoDup (map id (UI.addLoad ls beamLength))
    /\ Forall (fun l => (id l < UI.maxId (UI.addLoad ls beamLength))%Z) ls
    /\ (0 < UI.maxId (UI.addLoad ls beamLength))%Z.
Proof.
  intros ls bl B H. rewrite (maxId_addLoad ls bl B). split; [|split].
  - unfold UI.addLoad. rewrite map_app. cbn [map id].
    rewrite succ_id_exact by (apply maxId_below; [lia|exact B]).
    apply NoDup_app. repeat split.
    + exact H.
    + apply NoDup_cons; [intros []|apply NoDup_nil].
    + intros i Hi [<-|[]]. apply in_map_iff in Hi as (l & E & Hl).
      apply maxId_bound in Hl. lia.
  - apply Forall_forall. intros l Hl. apply maxId_bound in Hl. lia.
  - pose proof (maxId_nonneg ls). lia.
Qed.

(** The bound is needed: next to a load with the id 2^53 the new load gets
    the same id, since 2^53 + 1 is rounded to 2^53. *)
Lemma addLoad_repeats_large_id :
  map id (UI.addLoad [mkLoad (2 ^ 53) point zero zero None] zero)
  = [(2 ^ 53)%Z; (2 ^ 53)%Z].
Proof. reflexivity. Qed.

Lemma filter_all :
  forall (A : Type) (f : A -> bool) (l : list A),
    (forall a, In a l -> f a = true) -> filter f l = l.
Proof.
  intros A f l H. induction l as [|x l IH]; [reflexivity|].
  cbn [filter]. rewrite (H x (or_introl eq_refl)). f_equal.
  apply IH. intros a Ha. apply H. now right.
Qed.

(** X7. While the ids in use are below 2^53, removing the load that [addLoad]
    has just added gives the list back. *)
Theorem removeLoad_addLoad :
  forall (ls : list Load) (beamLength : num),
    Forall (fun l => (id l < 2 ^ 53)%Z) ls ->
    UI.removeLoad (UI.addLoad ls beamLength)
      (UI.maxId (UI.addLoad ls beamLength)) = ls.
Proof.
  intros ls bl B. rewrite (maxId_addLoad ls bl B).
  unfold UI.removeLoad, UI.addLoad.
  rewrite filter_app. cbn [filter id].
  rewrite succ_id_exact by (apply maxId_below; [lia|exact B]).
  rewrite Z.eqb_refl. cbn [negb].
  rewrite app_nil_r. apply filter_all.
  intros l Hl. apply maxId_bound in Hl.
  apply negb_true_iff, Z.eqb_neq. lia.
Qed.

(** After a removal no load carries the removed id, and the loads with
    another id are kept, in their order. *)
Lemma removeLoad_spec :
  forall (ls : list Load) (i : Z),
    ~ In i (map id (UI.removeLoad ls i))
    /\ (forall l, In l (UI.removeLoad ls i) <-> In l ls /\ id l <> i)
    /\ (~ In i (map id ls) -> UI.removeLoad ls i = ls).
Proof.
  intros ls i. unfold UI.removeLoad. split; [|split].
  - intros H. apply in_map_iff in H as (l & E & Hl).
    apply filter_In in Hl as [_ Hl]. rewrite E, Z.eqb_refl in Hl.
    discriminate Hl.
  - intros l. rewrite filter_In, negb_true_iff, Z.eqb_neq. reflexivity.
  - intros H. apply filter_all. intros l Hl.
    apply negb_true_iff, Z.eqb_neq. intros E. apply H.
    apply in_map_iff. now exists l.
Qed.


(** X8. On a beam of finite length [>= 0], [addLoad] keeps a list of loads
    that all pass [validateLoad] in that state: the new load, at half the
    beam length, passes too. *)
Theorem addLoad_valid :
  forall (ls : list Load) (b : Q),
    (0 <= b)%Q ->
    Forall (fun l => Utils.isValid (Utils.validateLoad l (Fin b)) = true) ls ->
    Forall (fun l => Utils.isValid (Utils.validateLoad l (Fin b)) = true)
           (UI.addLoad ls (Fin b)).
Proof.
  intros ls b Hb H. unfold UI.addLoad. apply Forall_app. split; [exact H|].
  constructor; [|constructor].
  unfold Utils.validateLoad. cbn [position magnitude type length].
  change (Fin b / lit 2 1) with (Fin (Qred (b / (2 # 1)))).
  assert (E1 : (Fin (Qred (b / (2 # 1))) <? zero) = false).
  { unfold ltb, zero. qprop. unfold Qdiv. change (/ (2 # 1))%Q with (1 # 2)%Q.
    lra. }
  assert (E2 : (Fin (Qred (b / (2 # 1))) >? Fin b) = false).
  { unfold gtb, ltb. qprop. unfold Qdiv. change (/ (2 # 1))%Q with (1 # 2)%Q.
    lra. }
  rewrite E1, E2. reflexivity.
Qed.

(** X9. An update under an id that no load carries changes nothing, and an
    update of another field than the id keeps the ids, in their order. *)
Theorem updateLoad_ids :
  forall (ls : list Load) (beamLength : num) (i : Z) (u : UI.Update),
    (~ In i (map id ls) -> UI.updateLoad ls beamLength i u = ls)
    /\ ((forall v, u <> UI.SetId v) ->
        map id (UI.updateLoad ls beamLength i u) = map id ls).
Proof.
  intros ls bl i u. unfold UI.updateLoad. split.
  - intros H. rewrite <- (map_id ls) at 2. apply map_ext_in.
    intros l Hl. destruct (id l =? i)%Z eqn:E; [|reflexivity].
    apply Z.eqb_eq in E. exfalso. apply H. apply in_map_iff. now exists l.
  - intros H. rewrite map_map. apply map_ext. intros l.
    destruct (id l =? i)%Z; [|reflexivity]. cbn [negb].
    destruct u; try reflexivity. now elim (H v).
Qed.

Lemma clamp_range :
  forall (b : Q) (v : num),
    (0 <= b)%Q -> isNaN v = false ->
    exists q, Math_max zero (Math_min (Fin b) v) = Fin q
              /\ (0 <= q <= b)%Q.
Proof.
  intros b v Hb Hv. destruct v as [| | |q]; try discriminate Hv.
  - unfold Math_min. cbn [ltb]. unfold Math_max, zero. cbn [ltb].
    destruct (Qltb 0 b) eqn:E; eexists; (split; [reflexivity|]); qprop; lra.
  - exists 0%Q. split; [reflexivity|lra].
  - unfold Math_min. cbn [ltb].
    destruct (Qltb q b) eqn:E; unfold Math_max, zero; cbn [ltb].
    + destruct (Qltb 0 q) eqn:F; eexists; (split; [reflexivity|]);
        qprop; lra.
    + destruct (Qltb 0 b) eqn:F; eexists; (split; [reflexivity|]);
        qprop; lra.
Qed.

(** X10. A position update clamps the value into the beam: on a beam of finite
    length [>= 0] and for every value but [NaN], each updated load lies in
    [[0, beamLength]], and it passes [validateLoad] when it is not a
    distributed load and its magnitude is a number. *)
Theorem updateLoad_position_clamped :
  forall (ls : list Load) (b : Q) (i : Z) (v : num),
    (0 <= b)%Q -> isNaN v = false ->
    Forall (fun l =>
              id l = i ->
              (zero <=? position l) = true
              /\ (position l <=? Fin b) = true
              /\ (type l <> distributed -> isNaN (magnitude l) = false ->
                  Utils.isValid (Utils.validateLoad l (Fin b)) = true))
           (UI.updateLoad ls (Fin b) i (UI.SetPosition v)).
Proof.
  intros ls b i v Hb Hv. unfold UI.updateLoad. apply Forall_map.
  apply Forall_forall. intros l _.
  destruct (id l =? i)%Z eqn:E; cbn [negb].
  2:{ intros C. apply Z.eqb_neq in E. contradiction. }
  intros _. destruct (clamp_range b v Hb Hv) as (q & Eq & Hq).
  cbn [UI.applyUpdate position type magnitude]. rewrite Eq.
  assert (L1 : (zero <=? Fin q) = true) by (unfold leb, zero; qprop; lra).
  assert (L2 : (Fin q <=? Fin b) = true) by (unfold leb; qprop; lra).
  repeat split; try assumption.
  intros Ht Hm. unfold Utils.validateLoad.
  cbn [position type magnitude length].
  rewrite Hm.
  rewrite (ltb_negb_leb (Fin q) zero eq_refl eq_refl), L1.
  unfold gtb. rewrite (ltb_negb_leb (Fin b) (Fin q) eq_refl eq_refl), L2.
  cbn [isNaN negb orb]. destruct (type l); try reflexivity. now elim Ht.
Qed.

(** X11. A length update clamps the value into the rest of the beam: for a
    load at a finite position within a finite beam and every value but
    [NaN], the new length lies between 0 and the remaining length
    [beamLength - position], as the code computes that difference. *)
Theorem updateLoad_length_clamped :
  forall (l : Load) (b p : Q) (v : num),
    position l = Fin p -> (p <= b)%Q -> isNaN v = false ->
    exists len,
      length (UI.applyUpdate (Fin b) (UI.SetLength v) l) = Some len
      /\ (zero <=? len) = true
      /\ (len <=? Fin b - Fin p) = true.
Proof.
  intros l b p v Hp Hle Hv.
  cbn [UI.applyUpdate length position type magnitude]. rewrite Hp.
  change (Fin b - Fin p) with (Fin (Qred (b - p))).
  assert (Hr : (0 <= Qred (b - p))%Q) by (qprop; lra).
  destruct (clamp_range (Qred (b - p)) v Hr Hv) as (q & Eq & Hq).
  rewrite Eq. exists (Fin q).
  split; [reflexivity|].
  split; unfold leb, zero; qprop; lra.
Qed.


(* ================================================================== *)
(** ** Which loads an internal force reads *)

Lemma fold_left_filter :
  forall (A B : Type) (f : A -> B -> A) (g : B -> bool),
    (forall a b, g b = false -> f a b = a) ->
    forall (l : list B) (a0 : A),
      fold_left f (filter g l) a0 = fold_left f l a0.
Proof.
  intros A B f g H l. induction l as [|x l IH]; intros a0; [reflexivity|].
  cbn [filter fold_left]. destruct (g x) eqn:E.
  - cbn [fold_left]. apply IH.
  - rewrite (H a0 x E). apply IH.
Qed.

Lemma notTorsion_false : forall l, notTorsion l = false -> type l = torsion.
Proof.
  intros l H. unfold notTorsion, isTorsion in H.
  destruct (type l); try discriminate H; reflexivity.
Qed.

(** X12. Torsion loads are read by [calculateTorsion] only: the reactions, the
    shear and the moment are those of the load set without its torsion
    loads, and the torsion is that of the torsion loads alone. *)
Theorem torsion_loads_separate :
  forall (loads : list Load) (sA sB : num) (kA kB : SupportType)
         (r : Reactions) (x : num),
    calculateReactions (filter notTorsion loads) sA sB kA kB
    = calculateReactions loads sA sB kA kB
    /\ calculateShear (filter notTorsion loads) sA sB r x
       = calculateShear loads sA sB r x
    /\ calculateMoment (filter notTorsion loads) sA sB kA r x
       = calculateMoment loads sA sB kA r x
    /\ calculateTorsion (filter isTorsion loads) sA sB x
       = calculateTorsion loads sA sB x.
Proof.
  intros loads sA sB kA kB r x. repeat split.
  - unfold calculateReactions, fixedEndMoments, primaryReactions.
    rewrite !(fold_left_filter _ _ _ notTorsion); [reflexivity| |].
    + intros rr l H. apply notTorsion_false in H. unfold reaction_step.
      rewrite H. now destruct (_ || _).
    + intros mm l H. apply notTorsion_false in H. unfold fem_step.
      now rewrite H.
  - unfold calculateShear.
    rewrite (fold_left_filter _ _ _ notTorsion); [reflexivity|].
    intros s l H. apply notTorsion_false in H. unfold shear_step.
    rewrite H. now destruct (_ >? _).
  - unfold calculateMoment.
    rewrite (fold_left_filter _ _ _ notTorsion); [reflexivity|].
    intros s l H. apply notTorsion_false in H. unfold moment_step.
    rewrite H. now destruct (_ >? _).
  - unfold calculateTorsion.
    rewrite (fold_left_filter _ _ _ isTorsion); [reflexivity|].
    intros t l H. unfold torsion_step. unfold isTorsion in H.
    now rewrite H.
Qed.

Lemma sub_below_zero :
  forall a b, (a <? b) = true -> (a - b >=? zero) = false.
Proof.
  intros [| | |p] [| | |q] H; try discriminate H; try reflexivity.
  unfold ltb in H. unfold geb, sub, leb, zero. qprop. lra.
Qed.

(** X13. Loads placed outside the supports are not read by
    [calculateReactions]: neither loop takes a load whose position is
    below the start support or above the end support. *)
Theorem loads_outside_span_ignored :
  forall (loads : list Load) (sA sB : num) (kA kB : SupportType),
    calculateReactions (filter (Spec.inSpan sA sB) loads) sA sB kA kB
    = calculateReactions loads sA sB kA kB.
Proof.
  intros loads sA sB kA kB.
  unfold calculateReactions, fixedEndMoments, primaryReactions.
  rewrite !(fold_left_filter _ _ _ (Spec.inSpan sA sB)); [reflexivity| |].
  - intros rr l H. apply reaction_step_skip. unfold Spec.assigns.
    now rewrite H.
  - intros mm l H. unfold Spec.inSpan in H. apply negb_false_iff in H.
    unfold fem_step. apply orb_true_iff in H as [H|H].
    + rewrite (sub_below_zero _ _ H). now rewrite andb_false_r.
    + unfold gtb in H. rewrite (sub_below_zero _ _ H).
      now rewrite andb_false_r.
Qed.

(* ================================================================== *)
(** ** Finite values *)

Lemma denotes_Fin : forall q, denotes (Fin q) q.
Proof. intros q. unfold denotes. reflexivity. Qed.

Lemma denotes_eq :
  forall a p q, denotes a p -> (p == q)%Q -> denotes a q.
Proof.
  intros [| | |r] p q H E; try contradiction. unfold denotes in *.
  now rewrite H.
Qed.

Lemma denotes_inv :
  forall a q, denotes a q -> exists p, a = Fin p /\ (p == q)%Q.
Proof.
  intros [| | |r] q H; try contradiction. exists r.
  split; [reflexivity|exact H].
Qed.

Lemma denotes_lit : forall z d, denotes (lit z d) (z # d).
Proof. intros z d. unfold lit, denotes. apply Qred_correct. Qed.

Lemma denotes_add :
  forall a b p q, denotes a p -> denotes b q -> denotes (a + b) (p + q).
Proof.
  intros [| | |x] [| | |y] p q Ha Hb; try contradiction.
  unfold denotes in *. cbn [add]. now rewrite Qred_correct, Ha, Hb.
Qed.

Lemma denotes_sub :
  forall a b p q, denotes a p -> denotes b q -> denotes (a - b) (p - q).
Proof.
  intros [| | |x] [| | |y] p q Ha Hb; try contradiction.
  unfold denotes in *. cbn [sub]. now rewrite Qred_correct, Ha, Hb.
Qed.

Lemma denotes_mul :
  forall a b p q, denotes a p -> denotes b q -> denotes (a * b) (p * q).
Proof.
  intros [| | |x] [| | |y] p q Ha Hb; try contradiction.
  unfold denotes in *. cbn [mul]. now rewrite Qred_correct, Ha, Hb.
Qed.

Lemma denotes_neg : forall a p, denotes a p -> denotes (- a) (- p).
Proof.
  intros [| | |x] p Ha; try contradiction.
  unfold denotes in *. cbn [neg]. now rewrite Qred_correct, Ha.
Qed.

Lemma denotes_abs : forall a p, denotes a p -> denotes (Math_abs a) (Qabs p).
Proof.
  intros [| | |x] p Ha; try contradiction.
  unfold denotes in *. cbn [Math_abs]. now rewrite Qred_correct, Ha.
Qed.

Lemma denotes_div :
  forall a b p q,
    denotes a p -> denotes b q -> ~ (q == 0)%Q -> denotes (a / b) (p / q).
Proof.
  intros [| | |x] [| | |y] p q Ha Hb Hq; try contradiction.
  unfold denotes in *. cbn [div].
  assert (E : Qzerob y = false).
  { destruct (Qzerob y) eqn:E; [|reflexivity].
    apply Qzerob_iff in E. rewrite E in Hb. now elim Hq. }
  rewrite E, Qred_correct, Ha, Hb. reflexivity.
Qed.

Lemma denotes_max :
  forall a b p q, denotes a p -> denotes b q ->
                  denotes (Math_max a b) (Qmax p q).
Proof.
  intros [| | |x] [| | |y] p q Ha Hb; try contradiction.
  unfold denotes in *. unfold Math_max, ltb.
  destruct (Qltb x y) eqn:E; qprop.
  - rewrite Q.max_r; [exact Hb | rewrite <- Ha, <- Hb; lra].
  - rewrite Q.max_l; [exact Ha | rewrite <- Ha, <- Hb; lra].
Qed.

Lemma denotes_min :
  forall a b p q, denotes a p -> denotes b q ->
                  denotes (Math_min a b) (Qmin p q).
Proof.
  intros [| | |x] [| | |y] p q Ha Hb; try contradiction.
  unfold denotes in *. unfold Math_min, ltb.
  destruct (Qltb y x) eqn:E; qprop.
  - rewrite Q.min_r; [exact Hb | rewrite <- Ha, <- Hb; lra].
  - rewrite Q.min_l; [exact Ha | rewrite <- Ha, <- Hb; lra].
Qed.

(* ================================================================== *)
(** ** Rounding to three decimals *)


Lemma denotes_toFixed :
  forall d a q, denotes a q -> denotes (toFixed d a) (QtoFixed d q).
Proof.
  intros d [| | |x] q H; try contradiction. unfold denotes in *.
  cbn [toFixed]. rewrite Qred_correct. now apply QtoFixed_compat.
Qed.

(** Two numbers of the same value round to the same number. *)
Lemma toFixed_same_value :
  forall d a b q, denotes a q -> denotes b q -> toFixed d a = toFixed d b.
Proof.
  intros d [| | |x] [| | |y] q Ha Hb; try contradiction.
  unfold denotes in *. unfold toFixed. f_equal.
  apply Qred_complete, QtoFixed_compat. now rewrite Ha, Hb.
Qed.


(* ================================================================== *)
(** ** Reactions of a single load *)

Lemma span_positive :
  forall a b : Q, (a < b)%Q ->
    (Fin b - Fin a <=? zero) = false /\ denotes (Fin b - Fin a) (b - a).
Proof.
  intros a b H. split.
  - unfold sub, leb, zero. qprop. lra.
  - apply denotes_sub; apply denotes_Fin.
Qed.

Lemma in_span_guard :
  forall a p b : Q, (a <= p <= b)%Q ->
    (Fin p <? Fin a) || (Fin p >? Fin b) = false.
Proof.
  intros a p b [H1 H2]. apply orb_false_iff. unfold gtb, ltb.
  split; qprop; lra.
Qed.

Lemma calculateReactions_simple :
  forall loads (a b : Q) kA kB,
    (a < b)%Q -> kA <> fixed -> kB <> fixed ->
    calculateReactions loads (Fin a) (Fin b) kA kB
    = let rr := primaryReactions loads (Fin a) (Fin b) (Fin b - Fin a) in
      {| reactionA := toFixed 3 (fst rr); reactionB := toFixed 3 (snd rr);
         momentA := zero; momentB := zero |}.
Proof.
  intros loads a b kA kB H HA HB. unfold calculateReactions, fixedEndMoments.
  rewrite (proj1 (span_positive a b H)).
  rewrite (not_fixed kA HA), (not_fixed kB HB). cbn [orb andb].
  destruct (primaryReactions loads (Fin a) (Fin b) (Fin b - Fin a)).
  reflexivity.
Qed.

Lemma primary_point_load :
  forall (l : Load) (p m a b : Q),
    type l = point -> position l = Fin p -> magnitude l = Fin m ->
    (a <= p <= b)%Q -> (a < b)%Q ->
    exists uA uB,
      primaryReactions [l] (Fin a) (Fin b) (Fin b - Fin a) = (uA, uB)
      /\ denotes uA (Qabs m - Qabs m * (p - a) / (b - a))
      /\ denotes uB (Qabs m * (p - a) / (b - a)).
Proof.
  intros l p m a b Ht Hp Hm Hin Hab.
  unfold primaryReactions. cbn [fold_left]. unfold reaction_step.
  rewrite Ht, Hp, Hm, (in_span_guard a p b Hin). cbv zeta.
  eexists. eexists. split; [reflexivity|].
  assert (D : denotes (Math_abs (Fin m) * (Fin p - Fin a)
                       / (Fin b - Fin a))
                      (Qabs m * (p - a) / (b - a))).
  { apply denotes_div.
    - apply denotes_mul; [apply denotes_abs|apply denotes_sub];
        apply denotes_Fin.
    - apply denotes_sub; apply denotes_Fin.
    - lra. }
  split; [|exact D].
  apply denotes_sub; [apply denotes_abs, denotes_Fin | exact D].
Qed.

(** X15. One point load of magnitude at most 1000 inside an ordinary span,
    between supports that are not fixed: the reactions are finite and follow
    the lever rule within 0.001, so that together they carry the magnitude
    of the load within 0.002; both end moments are 0. *)
Theorem single_point_load_reactions :
  forall (l : Load) (p m a b : Q) (kA kB : SupportType),
    type l = point -> position l = Fin p -> magnitude l = Fin m ->
    (a <= p <= b)%Q -> ordinarySpan a b -> (Qabs m <= 1000)%Q ->
    kA <> fixed -> kB <> fixed ->
    let r := calculateReactions [l] (Fin a) (Fin b) kA kB in
    exists rA rB : Q,
      reactionA r = Fin rA /\ reactionB r = Fin rB
      /\ (- (1 # 1000) <= rA - Qabs m * (b - p) / (b - a) <= 1 # 1000)%Q
      /\ (- (1 # 1000) <= rB - Qabs m * (p - a) / (b - a) <= 1 # 1000)%Q
      /\ (- (1 # 500) <= rA + rB - Qabs m <= 1 # 500)%Q
      /\ momentA r = zero /\ momentB r = zero.
Proof.
  intros l p m a b kA kB Ht Hp Hm Hin (_ & _ & Hspan) _ HA HB r. subst r.
  assert (Hab : (a < b)%Q) by lra.
  rewrite (calculateReactions_simple [l] a b kA kB Hab HA HB).
  destruct (primary_point_load l p m a b Ht Hp Hm Hin Hab)
    as (uA & uB & E & DA & DB).
  rewrite E. cbn [fst snd reactionA reactionB momentA momentB].
  apply (denotes_toFixed 3) in DA, DB.
  apply denotes_inv in DA as (rA & EA & VA).
  apply denotes_inv in DB as (rB & EB & VB).
  exists rA, rB. rewrite EA, EB.
  pose proof (QtoFixed3_error (Qabs m - Qabs m * (p - a) / (b - a))) as RA.
  pose proof (QtoFixed3_error (Qabs m * (p - a) / (b - a))) as RB.
  rewrite <- VA in RA. rewrite <- VB in RB.
  assert (F : (Qabs m * (b - p) / (b - a)
               == Qabs m - Qabs m * (p - a) / (b - a))%Q)
    by (field; lra).
  rewrite F.
  repeat split; try reflexivity; lra.
Qed.

Lemma Math_max_left :
  forall p a : Q, (a <= p)%Q -> Math_max (Fin p) (Fin a) = Fin p.
Proof.
  intros p a H. unfold Math_max, ltb.
  destruct (Qltb p a) eqn:E; [|reflexivity]. qprop. lra.
Qed.

Lemma primary_distributed_load :
  forall (l : Load) (p w ln a b : Q),
    type l = distributed -> position l = Fin p -> magnitude l = Fin w ->
    length l = Some (Fin ln) -> ~ (ln == 0)%Q ->
    (a <= p <= b)%Q -> (a < b)%Q ->
    let eff := (Qmin (p + ln) b - p)%Q in
    let total := (Qabs w * eff)%Q in
    exists uA uB,
      primaryReactions [l] (Fin a) (Fin b) (Fin b - Fin a) = (uA, uB)
      /\ denotes uA (total - total * (p + eff / 2 - a) / (b - a))
      /\ denotes uB (total * (p + eff / 2 - a) / (b - a)).
Proof.
  intros l p w ln a b Ht Hp Hm Hl Hln Hin Hab eff total.
  unfold primaryReactions. cbn [fold_left]. unfold reaction_step.
  rewrite Ht, Hp, Hm, Hl, (in_span_guard a p b Hin). cbv zeta.
  assert (T : truthy (Fin ln) = true).
  { cbn [truthy]. apply negb_true_iff.
    destruct (Qzerob ln) eqn:E; [|reflexivity].
    apply Qzerob_iff in E. contradiction. }
  rewrite T, (Math_max_left p a (proj1 Hin)).
  eexists. eexists. split; [reflexivity|].
  assert (De : denotes (Math_min (Fin p + Fin ln) (Fin b) - Fin p) eff).
  { apply denotes_sub; [|apply denotes_Fin].
    apply denotes_min; [apply denotes_add|]; apply denotes_Fin. }
  assert (Dt : denotes (Math_abs (Fin w)
                        * (Math_min (Fin p + Fin ln) (Fin b) - Fin p)) total).
  { apply denotes_mul; [apply denotes_abs, denotes_Fin | exact De]. }
  assert (D : denotes
                (Math_abs (Fin w)
                 * (Math_min (Fin p + Fin ln) (Fin b) - Fin p)
                 * (Fin p
                    + (Math_min (Fin p + Fin ln) (Fin b) - Fin p) / lit 2 1
                    - Fin a)
                 / (Fin b - Fin a))
                (total * (p + eff / 2 - a) / (b - a))).
  { apply denotes_div.
    - apply denotes_mul; [exact Dt|].
      apply denotes_sub; [|apply denotes_Fin].
      apply denotes_add; [apply denotes_Fin|].
      apply denotes_div; [exact De | apply denotes_lit | discriminate].
    - apply denotes_sub; apply denotes_Fin.
    - lra. }
  split; [|exact D].
  apply denotes_sub; [exact Dt | exact D].
Qed.

(** X17. One distributed load of intensity at most 1000 and of positive
    length at most 1000 that starts inside an ordinary span, between
    supports that are not fixed: [reactionB] is the lever share of the load
    on the span within 0.001, and together the reactions carry the
    intensity times the loaded length inside the span within 0.002. *)
Theorem single_distributed_load_reactions :
  forall (l : Load) (p w ln a b : Q) (kA kB : SupportType),
    type l = distributed -> position l = Fin p -> magnitude l = Fin w ->
    length l = Some (Fin ln) -> (0 < ln <= 1000)%Q ->
    (a <= p <= b)%Q -> ordinarySpan a b -> (Qabs w <= 1000)%Q ->
    kA <> fixed -> kB <> fixed ->
    let r := calculateReactions [l] (Fin a) (Fin b) kA kB in
    let eff := (Qmin (p + ln) b - p)%Q in
    exists rA rB : Q,
      reactionA r = Fin rA /\ reactionB r = Fin rB
      /\ (- (1 # 1000)
          <= rB - Qabs w * eff * (p + eff / 2 - a) / (b - a)
          <= 1 # 1000)%Q
      /\ (- (1 # 500) <= rA + rB - Qabs w * eff <= 1 # 500)%Q.
Proof.
  intros l p w ln a b kA kB Ht Hp Hm Hl Hln Hin (_ & _ & Hspan) _ HA HB r eff.
  subst r.
  assert (Hab : (a < b)%Q) by lra.
  assert (Hln0 : ~ (ln == 0)%Q) by (intros C; lra).
  rewrite (calculateReactions_simple [l] a b kA kB Hab HA HB).
  destruct (primary_distributed_load l p w ln a b Ht Hp Hm Hl Hln0 Hin Hab)
    as (uA & uB & E & DA & DB).
  rewrite E. cbn [fst snd reactionA reactionB].
  apply (denotes_toFixed 3) in DA, DB.
  apply denotes_inv in DA as (rA & EA & VA).
  apply denotes_inv in DB as (rB & EB & VB).
  exists rA, rB. rewrite EA, EB. fold eff in VA, VB.
  pose proof (QtoFixed3_error
                (Qabs w * eff
                 - Qabs w * eff * (p + eff / 2 - a) / (b - a))) as RA.
  pose proof (QtoFixed3_error
                (Qabs w * eff * (p + eff / 2 - a) / (b - a))) as RB.
  rewrite <- VA in RA. rewrite <- VB in RB.
  repeat split; try reflexivity; lra.
Qed.


Section RoundingSymmetry.

Local Open Scope Q_scope.

Lemma Qabs_opp_eq : forall x, Qabs (- x) = Qabs x.
Proof.
  intros [a d]. unfold Qabs, Qopp. cbn [Qnum Qden]. now rewrite Z.abs_opp.
Qed.

Lemma Qround_zero : forall d x, x == 0 -> Qround d x == 0.
Proof.
  intros d x E. unfold Qround.
  assert (F : Qfloor (x * Qpow10 d + (1 # 2)) = 0%Z).
  { rewrite (Qfloor_comp _ (1 # 2)); [reflexivity|]. rewrite E. ring. }
  rewrite F. unfold Qdiv. change (inject_Z 0) with 0. ring.
Qed.

(** Rounding is odd: the halves are rounded away from zero on both sides. *)
Lemma QtoFixed_opp : forall d x, QtoFixed d (- x) == - QtoFixed d x.
Proof.
  intros d x. unfold QtoFixed. rewrite Qabs_opp_eq.
  destruct (Qle_bool (Qpow10 21) (Qabs x)); [reflexivity|].
  fold (Qround d (Qabs x)).
  destruct (Qnegb (- x)) eqn:N1, (Qnegb x) eqn:N2.
  - apply Qnegb_iff in N1, N2. lra.
  - reflexivity.
  - ring.
  - assert (E : x == 0).
    { destruct (Qlt_le_dec x 0) as [C|C];
        [apply Qnegb_iff in C; congruence|].
      destruct (Qlt_le_dec (- x) 0) as [C'|C'];
        [apply Qnegb_iff in C'; congruence|]. lra. }
    rewrite (Qround_zero d (Qabs x)); [ring|]. rewrite E. reflexivity.
Qed.

End RoundingSymmetry.

(** X18. One applied moment of magnitude at most 1000 inside an ordinary
    span, between supports that are not fixed: the reactions form a couple,
    [reactionA] being the opposite of [reactionB], and [reactionB] is the
    moment over the span within 0.001. *)
Theorem single_moment_load_reactions :
  forall (l : Load) (p m a b : Q) (kA kB : SupportType),
    type l = moment -> position l = Fin p -> magnitude l = Fin m ->
    (a <= p <= b)%Q -> ordinarySpan a b -> (Qabs m <= 1000)%Q ->
    kA <> fixed -> kB <> fixed ->
    let r := calculateReactions [l] (Fin a) (Fin b) kA kB in
    exists rB : Q,
      reactionB r = Fin rB
      /\ reactionA r = - reactionB r
      /\ (- (1 # 1000) <= rB - m / (b - a) <= 1 # 1000)%Q.
Proof.
  intros l p m a b kA kB Ht Hp Hm Hin (_ & _ & Hspan) _ HA HB r. subst r.
  assert (Hab : (a < b)%Q) by lra.
  rewrite (calculateReactions_simple [l] a b kA kB Hab HA HB).
  unfold primaryReactions. cbn [fold_left]. unfold reaction_step.
  rewrite Ht, Hp, Hm, (in_span_guard a p b Hin). cbv zeta.
  cbn [fst snd reactionA reactionB].
  assert (D : denotes (Fin m / (Fin b - Fin a)) (m / (b - a))).
  { apply denotes_div; [apply denotes_Fin| |lra].
    apply denotes_sub; apply denotes_Fin. }
  apply denotes_inv in D as (u & E & V). rewrite E.
  cbn [neg toFixed]. eexists. split; [reflexivity|]. split.
  - f_equal. apply Qred_complete.
    rewrite (QtoFixed_compat 3 (Qred (- u)) (- u)%Q (Qred_correct _)).
    rewrite QtoFixed_opp, Qred_correct. reflexivity.
  - pose proof (QtoFixed3_error u) as R. rewrite Qred_correct.
    rewrite V in R at 2 4. lra.
Qed.

(* ================================================================== *)
(** ** A point load on the end support *)

Lemma neg_zeroish : forall a, zeroish a -> zeroish (- a).
Proof.
  intros [| | |q] H; try contradiction; try exact I.
  cbn [neg zeroish] in *. apply Qzerob_Qred, Qzerob_iff.
  apply Qzerob_iff in H. rewrite H. reflexivity.
Qed.

Lemma zeroish_times_PInf : forall a, zeroish a -> a * PInf = NaN.
Proof.
  intros [| | |q] H; try contradiction; try reflexivity.
  cbn [mul zeroish] in *. unfold inf_times. now rewrite H.
Qed.

Lemma add_NaN_r : forall a, a + NaN = NaN.
Proof. intros [| | |q]; reflexivity. Qed.

Lemma fem_step_keeps_NaN :
  forall sA sB span mm l,
    snd mm = NaN -> snd (fem_step sA sB span mm l) = NaN.
Proof.
  intros sA sB span mm l H. unfold fem_step.
  destruct (_ && _); [|exact H]. cbv zeta. cbn [snd]. now rewrite H.
Qed.

Lemma fold_fem_keeps_NaN :
  forall sA sB span loads mm,
    snd mm = NaN -> snd (fold_left (fem_step sA sB span) loads mm) = NaN.
Proof.
  intros sA sB span loads. induction loads as [|l loads IH]; intros mm H.
  - exact H.
  - cbn [fold_left]. apply IH. now apply fem_step_keeps_NaN.
Qed.

Lemma fem_step_at_end :
  forall (l : Load) (a b m : Q) mm,
    type l = point -> position l = Fin b -> magnitude l = Fin m ->
    (a < b)%Q ->
    snd (fem_step (Fin a) (Fin b) (Fin b - Fin a) mm l) = NaN.
Proof.
  intros l a b m mm Ht Hp Hm Hab. unfold fem_step. rewrite Ht, Hp, Hm.
  assert (G1 : (Fin b - Fin a >=? zero) = true)
    by (unfold geb, sub, leb, zero; qprop; lra).
  assert (G2 : (Fin b - Fin b >=? zero) = true)
    by (unfold geb, sub, leb, zero; qprop; lra).
  rewrite G1, G2. cbn [LoadType_eqb andb]. cbv zeta. cbn [snd].
  assert (Z : zeroish (Fin b - Fin b)).
  { cbn [sub zeroish]. apply Qzerob_Qred, Qzerob_iff. ring. }
  assert (S : exists s, (Fin b - Fin a) * (Fin b - Fin a) = Fin s
                        /\ Qzerob s = false).
  { cbn [sub mul]. eexists. split; [reflexivity|].
    destruct (Qzerob _) eqn:E; [|reflexivity].
    apply Qzerob_iff in E. rewrite !Qred_correct in E. nra. }
  destruct S as (s & Es & Hs). rewrite Es.
  assert (D : (Fin b - Fin a) / (Fin b - Fin b) = PInf).
  { cbn [sub div].
    assert (E1 : Qzerob (Qred (b - b)) = true)
      by (apply Qzerob_Qred, Qzerob_iff; ring).
    assert (E2 : Qzerob (Qred (b - a)) = false).
    { destruct (Qzerob (Qred (b - a))) eqn:E; [|reflexivity].
      apply Qzerob_iff in E. rewrite Qred_correct in E. lra. }
    assert (E3 : Qnegb (Qred (b - a)) = false).
    { destruct (Qnegb (Qred (b - a))) eqn:E; [|reflexivity].
      apply Qnegb_iff in E. rewrite Qred_correct in E. lra. }
    now rewrite E1, E2, E3. }
  rewrite D, zeroish_times_PInf; [apply add_NaN_r|].
  apply neg_zeroish, div_zeroish_finite; [|exact Hs].
  apply mul_zeroish_r, Z.
Qed.

(** X19. A point load placed exactly on the end support, with a fixed support
    at either end: the fixed-end moment at the end is [0 * Infinity], so
    [momentB] is [NaN] whatever the other loads are, and with a fixed end
    support both reactions are [NaN] as well. *)
Theorem point_load_on_end_support :
  forall (loads : list Load) (l : Load) (a b m : Q) (kA kB : SupportType),
    In l loads ->
    type l = point -> position l = Fin b -> magnitude l = Fin m ->
    (a < b)%Q -> kA = fixed \/ kB = fixed ->
    let r := calculateReactions loads (Fin a) (Fin b) kA kB in
    momentB r = NaN
    /\ (kB = fixed -> reactionA r = NaN /\ reactionB r = NaN).
Proof.
  intros loads l a b m kA kB Hin Ht Hp Hm Hab Hk r. subst r.
  unfold calculateReactions. rewrite (proj1 (span_positive a b Hab)).
  assert (F : SupportType_eqb kA fixed || SupportType_eqb kB fixed = true)
    by (destruct Hk as [-> | ->]; [reflexivity|apply orb_true_r]).
  unfold fixedEndMoments. rewrite F.
  apply in_split in Hin as (l1 & l2 & ->).
  rewrite fold_left_app. cbn [fold_left].
  set (mm := fold_left _ l1 _).
  pose proof (fold_fem_keeps_NaN (Fin a) (Fin b) (Fin b - Fin a) l2 _
                (fem_step_at_end l a b m mm Ht Hp Hm Hab)) as N.
  destruct (fold_left _ l2 _) as [mA mB]. cbn [snd] in N. subst mB.
  destruct (primaryReactions _ _ _ _) as [rA rB].
  split.
  - destruct (SupportType_eqb kA fixed && SupportType_eqb kB fixed);
      [reflexivity|].
    destruct (SupportType_eqb kA fixed); [reflexivity|].
    destruct (SupportType_eqb kB fixed); reflexivity.
  - intros ->. cbn [SupportType_eqb andb].
    destruct (SupportType_eqb kA fixed); cbn [reactionA reactionB].
    + destruct mA, rA, rB; split; reflexivity.
    + destruct rA, rB; split; reflexivity.
Qed.


(* ================================================================== *)
(** ** Ordinary inputs give finite outputs *)

Create HintDb finite.

Lemma isFinite_add : forall a b,
    isFinite a = true -> isFinite b = true -> isFinite (a + b) = true.
Proof. intros [| | |p] [| | |q] Ha Hb; try discriminate; reflexivity. Qed.

Lemma isFinite_sub : forall a b,
    isFinite a = true -> isFinite b = true -> isFinite (a - b) = true.
Proof. intros [| | |p] [| | |q] Ha Hb; try discriminate; reflexivity. Qed.

Lemma isFinite_mul : forall a b,
    isFinite a = true -> isFinite b = true -> isFinite (a * b) = true.
Proof. intros [| | |p] [| | |q] Ha Hb; try discriminate; reflexivity. Qed.

Lemma isFinite_neg : forall a, isFinite a = true -> isFinite (- a) = true.
Proof. intros [| | |p] Ha; try discriminate; reflexivity. Qed.

Lemma isFinite_abs : forall a,
    isFinite a = true -> isFinite (Math_abs a) = true.
Proof. intros [| | |p] Ha; try discriminate; reflexivity. Qed.

Lemma isFinite_min : forall a b,
    isFinite a = true -> isFinite b = true -> isFinite (Math_min a b) = true.
Proof.
  intros [| | |p] [| | |q] Ha Hb; try discriminate.
  unfold Math_min. now destruct (_ <? _).
Qed.

Lemma isFinite_max : forall a b,
    isFinite a = true -> isFinite b = true -> isFinite (Math_max a b) = true.
Proof.
  intros [| | |p] [| | |q] Ha Hb; try discriminate.
  unfold Math_max. now destruct (_ <? _).
Qed.

Lemma isFinite_toFixed : forall d a,
    isFinite a = true -> isFinite (toFixed d a) = true.
Proof. intros d [| | |p] Ha; try discriminate; reflexivity. Qed.

Lemma isFinite_div : forall a b,
    isFinite a = true -> finiteNonzero b -> isFinite (a / b) = true.
Proof.
  intros [| | |p] b Ha (q & -> & Hq); try discriminate.
  cbn [div]. now rewrite Hq.
Qed.

Lemma isFinite_lit : forall z d, isFinite (lit z d) = true.
Proof. reflexivity. Qed.

Lemma isFinite_zero : isFinite zero = true.
Proof. reflexivity. Qed.

Lemma isFinite_Fin : forall q, isFinite (Fin q) = true.
Proof. reflexivity. Qed.

Lemma finiteNonzero_two : finiteNonzero (lit 2 1).
Proof. eexists. split; reflexivity. Qed.

#[local] Hint Resolve isFinite_add isFinite_sub isFinite_mul isFinite_neg
  isFinite_abs isFinite_min isFinite_max isFinite_toFixed isFinite_div
  isFinite_lit isFinite_zero isFinite_Fin finiteNonzero_two : finite.

Lemma finiteLoad_fields :
  forall l, finiteLoad l = true ->
    isFinite (position l) = true /\ isFinite (magnitude l) = true
    /\ (forall len, length l = Some len -> isFinite len = true).
Proof.
  intros l H. unfold finiteLoad in H.
  apply andb_true_iff in H as [H H3]. apply andb_true_iff in H as [H1 H2].
  repeat split; try assumption.
  intros len E. now rewrite E in H3.
Qed.

Lemma fold_left_invariant :
  forall (A B : Type) (P : A -> Prop) (Q : B -> Prop) (f : A -> B -> A),
    (forall a b, P a -> Q b -> P (f a b)) ->
    forall (l : list B) (a0 : A),
      Forall Q l -> P a0 -> P (fold_left f l a0).
Proof.
  intros A B P Q f H l. induction l as [|x l IH]; intros a0 HQ HP.
  - exact HP.
  - cbn [fold_left]. inversion HQ; subst. apply IH; auto.
Qed.

Lemma shear_step_finite :
  forall x s l,
    isFinite x = true -> isFinite s = true -> finiteLoad l = true ->
    isFinite (shear_step x s l) = true.
Proof.
  intros x s l Hx Hs Hl.
  destruct (finiteLoad_fields l Hl) as (Hp & Hm & Hlen).
  unfold shear_step. destruct (position l >? x); [exact Hs|].
  destruct (type l); auto with finite.
  destruct (length l) as [len|] eqn:E; [|exact Hs].
  specialize (Hlen len eq_refl).
  destruct (truthy len); [|exact Hs]. cbv zeta.
  destruct (_ >? zero); auto 8 with finite.
Qed.

Lemma moment_step_finite :
  forall x s l,
    isFinite x = true -> isFinite s = true -> finiteLoad l = true ->
    isFinite (moment_step x s l) = true.
Proof.
  intros x s l Hx Hs Hl.
  destruct (finiteLoad_fields l Hl) as (Hp & Hm & Hlen).
  unfold moment_step. destruct (position l >? x); [exact Hs|].
  destruct (type l); auto with finite.
  destruct (length l) as [len|] eqn:E; [|exact Hs].
  specialize (Hlen len eq_refl).
  destruct (truthy len); [|exact Hs]. cbv zeta.
  destruct (_ >? zero); auto 10 with finite.
Qed.

Lemma torsion_step_finite :
  forall x s l,
    isFinite s = true -> finiteLoad l = true ->
    isFinite (torsion_step x s l) = true.
Proof.
  intros x s l Hs Hl.
  destruct (finiteLoad_fields l Hl) as (Hp & Hm & Hlen).
  unfold torsion_step. destruct (_ || _); [exact Hs|].
  destruct (LoadType_eqb _ _); auto with finite.
Qed.

Lemma rounded_fold_finite :
  forall (f : num -> Load -> num) (loads : list Load) (a0 : num)
         (out : bool),
    (forall s l, isFinite s = true -> finiteLoad l = true ->
                 isFinite (f s l) = true) ->
    Forall (fun l => finiteLoad l = true) loads ->
    isFinite a0 = true ->
    isFinite (if out then zero else toFixed 3 (fold_left f loads a0)) = true.
Proof.
  intros f loads a0 out Hf Hl H0. destruct out; [reflexivity|].
  apply isFinite_toFixed.
  apply (fold_left_invariant _ _ (fun s => isFinite s = true)
           (fun l => finiteLoad l = true)); auto.
Qed.

Lemma within_finite :
  forall (B : Q) (a : num), within B a -> isFinite a = true.
Proof. intros B a (q & -> & _). reflexivity. Qed.

Lemma boundedLoad_finite :
  forall (B : Q) (l : Load), boundedLoad B l -> finiteLoad l = true.
Proof.
  intros B l (Hp & Hm & Hl). unfold finiteLoad.
  rewrite (within_finite B _ Hp), (within_finite B _ Hm). cbn [andb].
  destruct (length l); [exact (within_finite B _ Hl) | reflexivity].
Qed.

Lemma boundedLoads_finite :
  forall (B : Q) (loads : list Load),
    Forall (boundedLoad B) loads ->
    Forall (fun l => finiteLoad l = true) loads.
Proof.
  intros B loads H. eapply Forall_impl; [|exact H].
  intros l. apply boundedLoad_finite.
Qed.

#[local] Hint Resolve within_finite : finite.

(** X20. On ordinary inputs (at most 1000 loads with fields up to 1000 in
    absolute value, a position and a start support within [[-1000, 1000]],
    a reaction and an end moment up to 10^9), the shear, the moment and the
    torsion are finite numbers: no [NaN] and no infinity arises in the
    internal forces. *)
Theorem internal_forces_finite :
  forall (loads : list Load) (sA sB : num) (kA : SupportType)
         (r : Reactions) (x : num),
    Forall (boundedLoad 1000) loads -> (List.length loads <= 1000)%nat ->
    within 1000 x -> within 1000 sA ->
    within 1000000000 (reactionA r) -> within 1000000000 (momentA r) ->
    isFinite (calculateShear loads sA sB r x) = true
    /\ isFinite (calculateMoment loads sA sB kA r x) = true
    /\ isFinite (calculateTorsion loads sA sB x) = true.
Proof.
  intros loads sA sB kA r x Hl _ Hx HsA HrA HmA.
  apply boundedLoads_finite in Hl.
  apply within_finite in Hx, HsA, HrA, HmA.
  repeat split.
  - unfold calculateShear. apply rounded_fold_finite; auto.
    intros; now apply shear_step_finite.
  - unfold calculateMoment. apply rounded_fold_finite; auto.
    + intros; now apply moment_step_finite.
    + destruct (SupportType_eqb kA fixed); auto with finite.
  - unfold calculateTorsion. apply rounded_fold_finite; auto.
    intros; now apply torsion_step_finite.
Qed.

Lemma sub_finiteNonzero :
  forall a b : Q, ~ (a == b)%Q -> finiteNonzero (Fin a - Fin b).
Proof.
  intros a b H. eexists. split; [reflexivity|].
  destruct (Qzerob (Qred (a - b))) eqn:E; [|reflexivity].
  apply Qzerob_iff in E. rewrite Qred_correct in E. elim H. lra.
Qed.

Lemma mul_finiteNonzero :
  forall a b, finiteNonzero a -> finiteNonzero b -> finiteNonzero (a * b).
Proof.
  intros a b (p & -> & Hp) (q & -> & Hq). eexists. split; [reflexivity|].
  destruct (Qzerob (Qred (p * q))) eqn:E; [|reflexivity].
  apply Qzerob_iff in E. rewrite Qred_correct in E.
  apply Qmult_integral in E.
  destruct E as [E|E]; apply Qzerob_iff in E; congruence.
Qed.

Lemma reaction_step_finite :
  forall sA sB span rr l,
    isFinite sA = true -> isFinite sB = true -> finiteNonzero span ->
    isFinite (fst rr) = true /\ isFinite (snd rr) = true ->
    finiteLoad l = true ->
    isFinite (fst (reaction_step sA sB span rr l)) = true
    /\ isFinite (snd (reaction_step sA sB span rr l)) = true.
Proof.
  intros sA sB span rr l HA HB Hs Hrr Hl.
  destruct (finiteLoad_fields l Hl) as (Hp & Hm & Hlen).
  unfold reaction_step. destruct (_ || _); [exact Hrr|]. cbv zeta.
  destruct (type l); try exact Hrr; cbn [fst snd].
  - split; auto 8 with finite.
  - destruct (length l) as [len|] eqn:E; [|exact Hrr].
    specialize (Hlen len eq_refl).
    destruct (truthy len); [|exact Hrr]. cbn [fst snd].
    split; auto 12 with finite.
  - split; auto 8 with finite.
Qed.

Lemma fem_step_finite :
  forall (a b : Q) mm l,
    (a < b)%Q ->
    isFinite (fst mm) = true /\ isFinite (snd mm) = true ->
    finiteLoad l = true /\ offEndSupport b l ->
    isFinite (fst (fem_step (Fin a) (Fin b) (Fin b - Fin a) mm l)) = true
    /\ isFinite (snd (fem_step (Fin a) (Fin b) (Fin b - Fin a) mm l)) = true.
Proof.
  intros a b mm l Hab Hmm [Hl Hoff].
  destruct (finiteLoad_fields l Hl) as (Hp & Hm & Hlen).
  unfold fem_step.
  destruct (LoadType_eqb (type l) point) eqn:Et; [|exact Hmm].
  assert (Tp : type l = point) by (destruct (type l); try discriminate; auto).
  specialize (Hoff Tp).
  destruct (position l) as [| | |p] eqn:Ep; try discriminate Hp.
  cbn [andb]. destruct (_ && _); [|exact Hmm]. cbv zeta. cbn [fst snd].
  assert (S : finiteNonzero (Fin b - Fin a))
    by (apply sub_finiteNonzero; lra).
  assert (S2 : finiteNonzero (Fin b - Fin p)).
  { apply sub_finiteNonzero. intros E. apply Hoff. cbn [denotes].
    now symmetry. }
  pose proof (mul_finiteNonzero _ _ S S) as SS.
  destruct Hmm as [Hm1 Hm2].
  split; auto 12 with finite.
Qed.

Lemma clearOfEnd_off :
  forall (B b : Q) (l : Load),
    boundedLoad B l -> clearOfEnd b l -> offEndSupport b l.
Proof.
  intros B b l ((p & Ep & _) & _) H Ht. rewrite Ep. cbn [denotes].
  intros E. destruct (H Ht p Ep); lra.
Qed.

(** X21. On ordinary inputs (at most 1000 loads with fields up to 1000 in
    absolute value on an ordinary span, every point load at least 0.001
    before the end support or beyond it), the four outputs of
    [calculateReactions] are finite numbers, whatever the support kinds. *)
Theorem reactions_finite :
  forall (loads : list Load) (a b : Q) (kA kB : SupportType),
    Forall (fun l => boundedLoad 1000 l /\ clearOfEnd b l) loads ->
    (List.length loads <= 1000)%nat -> ordinarySpan a b ->
    let r := calculateReactions loads (Fin a) (Fin b) kA kB in
    isFinite (reactionA r) = true /\ isFinite (reactionB r) = true
    /\ isFinite (momentA r) = true /\ isFinite (momentB r) = true.
Proof.
  intros loads a b kA kB Hb _ (_ & _ & Hspan) r. subst r.
  assert (Hab : (a < b)%Q) by lra.
  assert (Hl : Forall (fun l => finiteLoad l = true /\ offEndSupport b l)
                 loads).
  { eapply Forall_impl; [|exact Hb]. intros l [H1 H2]. split.
    - exact (boundedLoad_finite _ l H1).
    - exact (clearOfEnd_off _ b l H1 H2). }
  unfold calculateReactions. rewrite (proj1 (span_positive a b Hab)).
  assert (S : finiteNonzero (Fin b - Fin a))
    by (apply sub_finiteNonzero; lra).
  assert (M : isFinite (fst (fixedEndMoments loads (Fin a) (Fin b) kA kB
                               (Fin b - Fin a))) = true
              /\ isFinite (snd (fixedEndMoments loads (Fin a) (Fin b) kA kB
                                  (Fin b - Fin a))) = true).
  { unfold fixedEndMoments. destruct (_ || _); [|split; reflexivity].
    apply (fold_left_invariant _ _
             (fun mm => isFinite (fst mm) = true /\ isFinite (snd mm) = true)
             (fun l => finiteLoad l = true /\ offEndSupport b l));
      [|exact Hl|split; reflexivity].
    intros mm l Hmm H. now apply fem_step_finite. }
  assert (P : isFinite (fst (primaryReactions loads (Fin a) (Fin b)
                               (Fin b - Fin a))) = true
              /\ isFinite (snd (primaryReactions loads (Fin a) (Fin b)
                                  (Fin b - Fin a))) = true).
  { unfold primaryReactions.
    apply (fold_left_invariant _ _
             (fun rr => isFinite (fst rr) = true /\ isFinite (snd rr) = true)
             (fun l => finiteLoad l = true /\ offEndSupport b l));
      [|exact Hl|split; reflexivity].
    intros rr l Hrr [H _]. now apply reaction_step_finite. }
  destruct (fixedEndMoments _ _ _ _ _ _) as [mA mB].
  destruct (primaryReactions _ _ _ _) as [rA rB].
  cbn [fst snd] in M, P. destruct M as [M1 M2], P as [P1 P2].
  destruct (SupportType_eqb kA fixed && SupportType_eqb kB fixed);
    [|destruct (SupportType_eqb kA fixed);
      [|destruct (SupportType_eqb kB fixed)]];
    cbn [reactionA reactionB momentA momentB];
    repeat split; auto 8 with finite.
Qed.


(* ================================================================== *)
(** ** Section properties of a proper rectangle *)

Lemma denotes_pow2 :
  forall a p, denotes a p -> denotes (Math_pow a 2) (p * p).
Proof. intros a p H. cbn [Math_pow]. now apply denotes_mul. Qed.

Lemma denotes_pow3 :
  forall a p, denotes a p -> denotes (Math_pow a 3) (Qcube p).
Proof.
  intros a p H. cbn [Math_pow]. unfold Qcube.
  apply denotes_mul; [exact H|]. now apply denotes_mul.
Qed.

Lemma denotes_pow4 :
  forall a p, denotes a p -> denotes (Math_pow a 4) (Qfourth p).
Proof.
  intros a p H. cbn [Math_pow]. unfold Qfourth.
  apply denotes_mul; [exact H|]. apply denotes_mul; [exact H|].
  now apply denotes_mul.
Qed.

(** Builds the rational value of a finite expression. *)
Ltac denote :=
  repeat match goal with
  | |- denotes (Fin _) _ => apply denotes_Fin
  | |- denotes (lit _ _) _ => apply denotes_lit
  | H : denotes ?a _ |- denotes ?a _ => exact H
  | |- denotes (Math_pow _ 2) _ => eapply denotes_pow2
  | |- denotes (Math_pow _ 3) _ => eapply denotes_pow3
  | |- denotes (Math_pow _ 4) _ => eapply denotes_pow4
  | |- denotes (Math_max _ _) _ => eapply denotes_max
  | |- denotes (Math_min _ _) _ => eapply denotes_min
  | |- denotes (Math_abs _) _ => eapply denotes_abs
  | |- denotes (_ + _) _ => eapply denotes_add
  | |- denotes (_ - _) _ => eapply denotes_sub
  | |- denotes (_ * _) _ => eapply denotes_mul
  | |- denotes (_ / _) _ => eapply denotes_div
  | |- denotes (- _) _ => eapply denotes_neg
  end.

Lemma denotes_positive :
  forall a q, denotes a q -> (0 < q)%Q -> finitePositive a.
Proof.
  intros a q H Hq. apply denotes_inv in H as (p & -> & E).
  exists p. split; [reflexivity|]. now rewrite E.
Qed.

Section Rectangle.

Local Open Scope Q_scope.

Variables w h : Q.
Hypothesis Hw : 0 < w.
Hypothesis Hh : 0 < h.

Lemma Qcube_pos : forall x, 0 < x -> 0 < Qcube x.
Proof.
  intros x H. unfold Qcube.
  apply Qmult_lt_0_compat; [exact H|]. now apply Qmult_lt_0_compat.
Qed.

Lemma ratio_bounds :
  let r := Qmin w h / Qmax w h in 0 < r <= 1.
Proof.
  assert (Hb : 0 < Qmin w h) by (apply Q.min_glb_lt; assumption).
  assert (Ha : 0 < Qmax w h).
  { apply Qlt_le_trans with w; [exact Hw | apply Q.le_max_l]. }
  assert (Hba : Qmin w h <= Qmax w h).
  { apply Qle_trans with w; [apply Q.le_min_l | apply Q.le_max_l]. }
  cbv zeta. split.
  - apply Qlt_shift_div_l; [exact Ha|lra].
  - apply Qle_shift_div_r; [exact Ha|lra].
Qed.

Lemma torsion_bracket_positive :
  let r := Qmin w h / Qmax w h in
  0 < 1 / 3 - (21 # 100) * r * (1 - Qfourth r / 12).
Proof.
  pose proof ratio_bounds as R. cbv zeta in *.
  set (r := Qmin w h / Qmax w h) in *.
  assert (T : 0 <= Qfourth r).
  { unfold Qfourth. destruct R as [R0 R1].
    assert (0 <= r) by lra.
    apply Qmult_le_0_compat; [assumption|].
    apply Qmult_le_0_compat; [assumption|].
    now apply Qmult_le_0_compat. }
  assert (P : 0 <= r * Qfourth r) by (apply Qmult_le_0_compat; lra).
  set (t := Qfourth r) in *.
  assert (E : 1 / 3 - (21 # 100) * r * (1 - t / 12)
              == (1 # 3) - (21 # 100) * r + (21 # 1200) * (r * t))
    by field.
  rewrite E. lra.
Qed.

End Rectangle.

Lemma section_denotes :
  forall w h : Q,
    (0 < w)%Q -> (0 < h)%Q ->
    let p := calculateSectionProperties (Fin h) (Fin w) in
    denotes (area p) (Qmax (1 # 1000) (w * h))
    /\ denotes (momentOfInertia p) (w * Qcube h / 12)
    /\ denotes (sectionModulus p) (w * (h * h) / 6)
    /\ denotes (polarMomentOfInertia p) (w * h * (h * h + w * w) / 12).
Proof.
  intros w h Hw Hh p. subst p. unfold calculateSectionProperties.
  cbv zeta. cbn [area momentOfInertia sectionModulus polarMomentOfInertia].
  repeat split.
  - eapply denotes_eq; [denote|]. now rewrite (Qmult_comm h w).
  - eapply denotes_eq; [denote; discriminate|]. reflexivity.
  - eapply denotes_eq; [denote; try discriminate; lra|].
    unfold Qcube. field. lra.
  - eapply denotes_eq; [denote; discriminate|]. unfold Qcube. field.
Qed.

Lemma torsionalConstant_positive :
  forall w h : Q,
    (0 < w)%Q -> (0 < h)%Q ->
    finitePositive
      (torsionalConstant (calculateSectionProperties (Fin h) (Fin w))).
Proof.
  intros w h Hw Hh. unfold calculateSectionProperties. cbv zeta.
  cbn [torsionalConstant].
  assert (Ha : (0 < Qmax w h)%Q).
  { apply Qlt_le_trans with w; [exact Hw | apply Q.le_max_l]. }
  assert (Hb : (0 < Qmin w h)%Q) by (apply Q.min_glb_lt; assumption).
  eapply denotes_positive.
  - denote; try discriminate; lra.
  - apply Qmult_lt_0_compat.
    + apply Qmult_lt_0_compat; [exact Ha | now apply Qcube_pos].
    + apply (torsion_bracket_positive w h Hw Hh).
Qed.

(** The three section quantities the stresses divide by. *)
Lemma stress_divisors_positive :
  forall w h : Q,
    (0 < w)%Q -> (0 < h)%Q ->
    let p := calculateSectionProperties (Fin h) (Fin w) in
    finitePositive (momentOfInertia p)
    /\ finitePositive (sectionModulus p)
    /\ finitePositive (torsionalConstant p).
Proof.
  intros w h Hw Hh p.
  destruct (section_denotes w h Hw Hh) as (_ & D2 & D3 & _). fold p in D2, D3.
  pose proof (Qcube_pos h Hh) as Hc.
  assert (Hhh : (0 < h * h)%Q) by now apply Qmult_lt_0_compat.
  repeat split.
  - eapply denotes_positive; [exact D2|].
    apply Qlt_shift_div_l; [reflexivity|].
    rewrite Qmult_0_l. now apply Qmult_lt_0_compat.
  - eapply denotes_positive; [exact D3|].
    apply Qlt_shift_div_l; [reflexivity|].
    rewrite Qmult_0_l. now apply Qmult_lt_0_compat.
  - now apply torsionalConstant_positive.
Qed.

(** X22. For every rectangle with sides between 0.001 and 1000, the five
    section properties are finite and above 0. *)
Theorem section_properties_positive :
  forall w h : Q,
    ordinarySide w -> ordinarySide h ->
    let p := calculateSectionProperties (Fin h) (Fin w) in
    finitePositive (area p) /\ finitePositive (momentOfInertia p)
    /\ finitePositive (sectionModulus p)
    /\ finitePositive (polarMomentOfInertia p)
    /\ finitePositive (torsionalConstant p).
Proof.
  intros w h [Hw0 _] [Hh0 _] p.
  assert (Hw : (0 < w)%Q) by lra.
  assert (Hh : (0 < h)%Q) by lra.
  destruct (section_denotes w h Hw Hh) as (D1 & D2 & D3 & D4).
  fold p in D1, D2, D3, D4.
  assert (Hwh : (0 < w * h)%Q) by now apply Qmult_lt_0_compat.
  assert (Hhh : (0 < h * h)%Q) by now apply Qmult_lt_0_compat.
  assert (Hww : (0 < w * w)%Q) by now apply Qmult_lt_0_compat.
  pose proof (Qcube_pos h Hh) as Hc.
  repeat split.
  - eapply denotes_positive; [exact D1|].
    apply Qlt_le_trans with (1 # 1000)%Q; [reflexivity|apply Q.le_max_l].
  - eapply denotes_positive; [exact D2|].
    apply Qlt_shift_div_l; [reflexivity|].
    rewrite Qmult_0_l. now apply Qmult_lt_0_compat.
  - eapply denotes_positive; [exact D3|].
    apply Qlt_shift_div_l; [reflexivity|].
    rewrite Qmult_0_l. now apply Qmult_lt_0_compat.
  - eapply denotes_positive; [exact D4|].
    apply Qlt_shift_div_l; [reflexivity|]. rewrite Qmult_0_l.
    apply Qmult_lt_0_compat; [exact Hwh|lra].
  - now apply torsionalConstant_positive.
Qed.


(* ================================================================== *)
(** ** Stresses *)

Lemma denotes_nonNegative :
  forall a q, denotes a q -> (0 <= q)%Q -> finiteNonNegative a.
Proof.
  intros a q H Hq. apply denotes_inv in H as (p & -> & E).
  exists p. split; [reflexivity|]. now rewrite E.
Qed.

Lemma isFinite_denotes :
  forall a, isFinite a = true -> exists q, denotes a q.
Proof.
  intros [| | |p] H; try discriminate. exists p. apply denotes_Fin.
Qed.

Lemma finitePositive_denotes :
  forall a, finitePositive a -> exists q, denotes a q /\ (0 < q)%Q.
Proof.
  intros a (q & -> & H). exists q. split; [apply denotes_Fin|exact H].
Qed.

Lemma QtoFixed3_nonneg : forall x, (0 <= x)%Q -> (0 <= QtoFixed 3 x)%Q.
Proof.
  intros x H. rewrite (QtoFixed_nonneg 3 x H).
  destruct (Qle_bool (Qpow10 21) x); [exact H|].
  unfold Qround. change (Qpow10 3) with (1000 # 1)%Q.
  assert (F : (0 <= Qfloor (x * (1000 # 1) + (1 # 2)))%Z).
  { rewrite <- (Qfloor_Z 0). apply Qfloor_resp_le.
    change (inject_Z 0) with 0%Q. lra. }
  apply Qle_shift_div_l; [reflexivity|]. rewrite Qmult_0_l.
  change 0%Q with (inject_Z 0). now rewrite <- Zle_Qle.
Qed.

(** A stress: the rounded quotient of an absolute value by a positive
    section quantity, scaled to megapascals. *)
Lemma stress_quotient :
  forall a b : num,
    isFinite a = true -> finitePositive b ->
    exists q,
      denotes (Math_abs a / b / lit 1000000 1) q /\ (0 <= q)%Q.
Proof.
  intros a b Ha Hb.
  apply isFinite_denotes in Ha as (p & Dp).
  apply finitePositive_denotes in Hb as (d & Dd & Hd).
  eexists. split.
  - denote; [lra | discriminate].
  - apply Qle_shift_div_l; [reflexivity|]. rewrite Qmult_0_l.
    apply Qle_shift_div_l; [exact Hd|]. rewrite Qmult_0_l.
    apply Qabs_nonneg.
Qed.

Lemma toFixed3_nonNegative :
  forall a q, denotes a q -> (0 <= q)%Q -> finiteNonNegative (toFixed 3 a).
Proof.
  intros a q D H. eapply denotes_nonNegative.
  - apply denotes_toFixed, D.
  - now apply QtoFixed3_nonneg.
Qed.

Lemma Math_sqrt_nonNegative :
  forall (sqrtQ : Q -> Q) a q,
    (forall p, (0 <= p)%Q -> (0 <= sqrtQ p)%Q) ->
    denotes a q -> (0 <= q)%Q ->
    exists s, denotes (Math_sqrt sqrtQ a) s /\ (0 <= s)%Q.
Proof.
  intros sqrtQ a q Hs D H. apply denotes_inv in D as (p & -> & E).
  assert (Hp : (0 <= p)%Q) by now rewrite E.
  cbn [Math_sqrt]. rewrite (Qnegb_nonneg p Hp).
  exists (sqrtQ p). split; [apply Qred_correct | now apply Hs].
Qed.

(** X23. On ordinary inputs (a rectangle with sides between 0.001 and 1000,
    at most 1000 loads with fields up to 1000 in absolute value, a position
    and a start support within [[-1000, 1000]], a reaction and an end moment
    up to 10^9) and with a square root that is not negative, the four
    stresses are finite numbers that are not negative. *)
Theorem stresses_finite_nonnegative :
  forall (sqrtQ : Q -> Q),
    (forall p, (0 <= p)%Q -> (0 <= sqrtQ p)%Q) ->
    forall (w h : Q), ordinarySide w -> ordinarySide h ->
    forall (loads : list Load) (sA sB : num) (kA : SupportType)
           (r : Reactions) (x : num),
      Forall (boundedLoad 1000) loads -> (List.length loads <= 1000)%nat ->
      within 1000 x -> within 1000 sA ->
      within 1000000000 (reactionA r) -> within 1000000000 (momentA r) ->
      let s := calculateStresses sqrtQ (Fin h) (Fin w) loads sA sB kA r x in
      finiteNonNegative (normalStress s)
      /\ finiteNonNegative (shearStress s)
      /\ finiteNonNegative (torsionalStress s)
      /\ finiteNonNegative (vonMisesStress s).
Proof.
  intros sqrtQ sqrtQ_nonneg w h [Hw0 _] [Hh0 _] loads sA sB kA r x
    Hloads _ Hx HsA HrA HmA.
  assert (Hw : (0 < w)%Q) by lra.
  assert (Hh : (0 < h)%Q) by lra.
  apply boundedLoads_finite in Hloads.
  apply within_finite in Hx, HsA, HrA, HmA.
  cbv zeta. unfold calculateStresses. cbv zeta.
  cbn [normalStress shearStress torsionalStress vonMisesStress].
  destruct (stress_divisors_positive w h Hw Hh) as (PI & PS & PJ).
  assert (FV : isFinite (calculateShear loads sA sB r x) = true).
  { unfold calculateShear. apply rounded_fold_finite; auto.
    intros; now apply shear_step_finite. }
  assert (FM : isFinite (calculateMoment loads sA sB kA r x) = true).
  { unfold calculateMoment. apply rounded_fold_finite; auto.
    - intros; now apply moment_step_finite.
    - destruct (SupportType_eqb kA fixed); auto with finite. }
  assert (FT : isFinite (calculateTorsion loads sA sB x) = true).
  { unfold calculateTorsion. apply rounded_fold_finite; auto.
    intros; now apply torsion_step_finite. }
  set (M := calculateMoment loads sA sB kA r x) in *.
  set (V := calculateShear loads sA sB r x) in *.
  set (T := calculateTorsion loads sA sB x) in *.
  set (props := calculateSectionProperties (Fin h) (Fin w)) in *.
  assert (N : exists q, denotes (Math_abs M / sectionModulus props
                                 / lit 1000000 1) q /\ (0 <= q)%Q)
    by (apply stress_quotient; assumption).
  assert (S : exists q,
             denotes (Math_abs (V * (Fin w * Fin h * Fin h / lit 8 1))
                      / (momentOfInertia props * Fin w)
                      / lit 1000000 1) q /\ (0 <= q)%Q).
  { apply stress_quotient.
    - auto 8 with finite.
    - apply finitePositive_denotes in PI as (i & Di & Hi).
      eapply denotes_positive; [denote|].
      now apply Qmult_lt_0_compat. }
  assert (U : exists q,
             denotes (Math_abs (T * Fin h)
                      / (lit 2 1 * torsionalConstant props)
                      / lit 1000000 1) q /\ (0 <= q)%Q).
  { apply stress_quotient.
    - auto with finite.
    - apply finitePositive_denotes in PJ as (j & Dj & Hj).
      eapply denotes_positive; [denote|]. lra. }
  destruct N as (n & Dn & Hn), S as (s & Ds & Hs'), U as (u & Du & Hu).
  repeat split; try (eapply toFixed3_nonNegative; eassumption).
  assert (A : exists q,
             denotes (Math_pow (Math_abs M / sectionModulus props
                                / lit 1000000 1) 2
                      + lit 3 1
                        * (Math_pow
                             (Math_abs (V * (Fin w * Fin h * Fin h / lit 8 1))
                              / (momentOfInertia props * Fin w)
                              / lit 1000000 1) 2
                           + Math_pow (Math_abs (T * Fin h)
                                       / (lit 2 1 * torsionalConstant props)
                                       / lit 1000000 1) 2)) q
             /\ (0 <= q)%Q).
  { eexists. split; [denote|].
    assert (0 <= n * n)%Q by now apply Qmult_le_0_compat.
    assert (0 <= s * s)%Q by now apply Qmult_le_0_compat.
    assert (0 <= u * u)%Q by now apply Qmult_le_0_compat.
    lra. }
  destruct A as (q & Dq & Hq).
  destruct (Math_sqrt_nonNegative sqrtQ _ q sqrtQ_nonneg Dq Hq)
    as (v & Dv & Hv).
  eapply toFixed3_nonNegative; eassumption.
Qed.

(* ================================================================== *)
(** ** Outside the supports *)

Lemma denotes_zero_is_zero_sum :
  forall a b, denotes (a + b) 0 -> a + b = zero.
Proof.
  intros [| | |p] [| | |q] H; try contradiction.
  cbn [add denotes] in *. unfold zero. f_equal.
  rewrite Qred_correct in H. now apply (Qred_complete _ 0).
Qed.

Lemma toFixed3_of_zero_value :
  forall a, denotes a 0 -> toFixed 3 a = zero.
Proof.
  intros a H. change zero with (toFixed 3 zero).
  apply toFixed_same_value with (q := 0%Q); [exact H|reflexivity].
Qed.

Lemma zero_stress :
  forall a b : num,
    denotes a 0 -> finitePositive b ->
    denotes (Math_abs a / b / lit 1000000 1) 0.
Proof.
  intros a b Ha Hb.
  apply finitePositive_denotes in Hb as (d & Dd & Hd).
  eapply denotes_eq; [denote; [lra|discriminate]|].
  change (Qabs 0) with 0%Q. field. lra.
Qed.

Lemma outside_forces :
  forall loads sA sB kA r x,
    (x <? sA) || (x >? sB) = true ->
    calculateShear loads sA sB r x = zero
    /\ calculateMoment loads sA sB kA r x = zero
    /\ calculateTorsion loads sA sB x = zero.
Proof.
  intros loads sA sB kA r x H.
  unfold calculateShear, calculateMoment, calculateTorsion, outside.
  rewrite H. repeat split.
Qed.

(** X24. At a position outside the supports the shear, the moment and the
    torsion are 0, and on a rectangle with sides between 0.001 and 1000
    (with a square root that maps 0 to 0) the four stresses are 0 too. *)
Theorem outside_supports_all_zero :
  forall (sqrtQ : Q -> Q) (w h : Q) (loads : list Load) (sA sB : num)
         (kA : SupportType) (r : Reactions) (x : num),
    (sqrtQ 0 == 0)%Q -> ordinarySide w -> ordinarySide h ->
    (x <? sA) || (x >? sB) = true ->
    calculateShear loads sA sB r x = zero
    /\ calculateMoment loads sA sB kA r x = zero
    /\ calculateTorsion loads sA sB x = zero
    /\ calculateStresses sqrtQ (Fin h) (Fin w) loads sA sB kA r x
       = {| normalStress := zero; shearStress := zero;
            torsionalStress := zero; vonMisesStress := zero |}.
Proof.
  intros sqrtQ w h loads sA sB kA r x Hs [Hw0 _] [Hh0 _] Hout.
  assert (Hw : (0 < w)%Q) by lra.
  assert (Hh : (0 < h)%Q) by lra.
  destruct (outside_forces loads sA sB kA r x Hout) as (EV & EM & ET).
  repeat split; try assumption.
  unfold calculateStresses. cbv zeta. rewrite EV, EM, ET.
  destruct (stress_divisors_positive w h Hw Hh) as (PI & PS & PJ).
  set (props := calculateSectionProperties (Fin h) (Fin w)) in *.
  assert (N : denotes (Math_abs zero / sectionModulus props
                       / lit 1000000 1) 0).
  { apply zero_stress; [reflexivity|exact PS]. }
  assert (S : denotes (Math_abs (zero * (Fin w * Fin h * Fin h / lit 8 1))
                       / (momentOfInertia props * Fin w)
                       / lit 1000000 1) 0).
  { apply zero_stress.
    - eapply denotes_eq; [unfold zero; denote; discriminate|]. field.
    - apply finitePositive_denotes in PI as (i & Di & Hi).
      eapply denotes_positive; [denote|]. now apply Qmult_lt_0_compat. }
  assert (U : denotes (Math_abs (zero * Fin h)
                       / (lit 2 1 * torsionalConstant props)
                       / lit 1000000 1) 0).
  { apply zero_stress.
    - eapply denotes_eq; [unfold zero; denote|]. ring.
    - apply finitePositive_denotes in PJ as (j & Dj & Hj).
      eapply denotes_positive; [denote|]. lra. }
  rewrite (toFixed3_of_zero_value _ N), (toFixed3_of_zero_value _ S),
    (toFixed3_of_zero_value _ U).
  f_equal.
  rewrite denotes_zero_is_zero_sum.
  - cbn [Math_sqrt zero Qnegb Qnum Z.ltb Z.compare toFixed].
    unfold zero. f_equal. apply (Qred_complete _ 0).
    rewrite (QtoFixed_compat 3 _ 0); [reflexivity|].
    now rewrite Qred_correct.
  - eapply denotes_eq; [denote|]. ring.
Qed.


(* ================================================================== *)
(** ** The utility module *)

Lemma leb_not_gtb : forall a b, (a <=? b) = true -> (a >? b) = false.
Proof.
  intros a b H. unfold gtb. destruct (leb_not_NaN _ _ H) as [Na Nb].
  now rewrite (ltb_negb_leb b a Nb Na), H.
Qed.

Lemma utils_steps_before_load :
  forall x l,
    (x <=? position l) = true ->
    Utils.shear_step x zero l = zero /\ Utils.moment_step x zero l = zero.
Proof.
  intros x l H. unfold Utils.shear_step, Utils.moment_step.
  rewrite H, (leb_not_gtb _ _ H). destruct (type l); split; reflexivity.
Qed.

(** X25. In the utility module, the shear and the moment are 0 at every
    position that is at or before all the loads; an empty load list gives
    0 everywhere. *)
Theorem utils_forces_zero_before_loads :
  forall (x : num) (loads : list Load),
    Forall (fun l => (x <=? position l) = true) loads ->
    Utils.calculateShear x loads = zero
    /\ Utils.calculateMoment x loads = zero.
Proof.
  intros x loads H. unfold Utils.calculateShear, Utils.calculateMoment.
  split.
  - apply (fold_left_invariant _ _ (fun s => s = zero)
             (fun l => (x <=? position l) = true)); auto.
    intros s l -> Hl. apply (utils_steps_before_load x l Hl).
  - apply (fold_left_invariant _ _ (fun s => s = zero)
             (fun l => (x <=? position l) = true)); auto.
    intros s l -> Hl. apply (utils_steps_before_load x l Hl).
Qed.

(** X26. The diagram of the utility module starts at the origin: on a beam of
    finite length, with every load at a position [>= 0], the first point
    has position, shear and moment 0. *)
Theorem utils_diagram_starts_at_origin :
  forall (q : Q) (loads : list Load),
    Forall (fun l => (zero <=? position l) = true) loads ->
    hd_error (Utils.generateDiagramData (Fin q) loads)
    = Some {| Utils.DiagramPoint.position := zero;
              Utils.DiagramPoint.shear := zero;
              Utils.DiagramPoint.moment := zero |}.
Proof.
  intros q loads H. unfold Utils.generateDiagramData.
  change (seq 0 (Utils.points + 1)) with (0%nat :: seq 1 Utils.points).
  cbn [map hd_error].
  change (of_nat 0 * (Fin q / of_nat Utils.points)) with zero.
  assert (S : Utils.calculateShear zero loads = zero).
  { apply (fold_left_invariant _ _ (fun s => s = zero)
             (fun l => (zero <=? position l) = true)); auto.
    intros s l -> Hl. apply (utils_steps_before_load zero l Hl). }
  assert (M : Utils.calculateMoment zero loads = zero).
  { apply (fold_left_invariant _ _ (fun s => s = zero)
             (fun l => (zero <=? position l) = true)); auto.
    intros s l -> Hl. apply (utils_steps_before_load zero l Hl). }
  now rewrite S, M.
Qed.

Lemma covered_cases :
  forall p len x : Q,
    (0 < len)%Q ->
    let c := Qmax 0 (Qmin (x - p) len) in
    (x <= p /\ c == 0)%Q
    \/ (p < x <= p + len /\ c == x - p)%Q
    \/ (p + len < x /\ c == len)%Q.
Proof.
  intros p len x Hlen c. unfold c.
  destruct (Qlt_le_dec p x) as [H1|H1].
  - destruct (Qlt_le_dec (p + len) x) as [H2|H2].
    + right. right. split; [exact H2|].
      rewrite (Q.min_r (x - p) len) by lra. apply Q.max_r. lra.
    + right. left. split; [lra|].
      rewrite (Q.min_l (x - p) len) by lra. apply Q.max_r. lra.
  - left. split; [exact H1|].
    rewrite (Q.min_l (x - p) len) by lra. apply Q.max_l. lra.
Qed.

(** The three branches of the utility functions on a distributed load are
    the three cases of the clamp of [x - position] to [[0, length]]. *)
Lemma utils_distributed_load_value :
  forall (l : Load) (p m len x : Q),
    type l = distributed -> position l = Fin p -> magnitude l = Fin m ->
    length l = Some (Fin len) -> (0 < len)%Q ->
    let c := Qmax 0 (Qmin (x - p) len) in
    denotes (Utils.calculateShear (Fin x) [l]) (m * c)
    /\ denotes (Utils.calculateMoment (Fin x) [l]) (m * c * (x - p - c / 2)).
Proof.
  intros l p m len x Ht Hp Hm Hl Hlen c.
  unfold Utils.calculateShear, Utils.calculateMoment. cbn [fold_left].
  unfold Utils.shear_step, Utils.moment_step.
  rewrite Ht, Hp, Hm, Hl. cbn [to_number]. cbv zeta.
  destruct (covered_cases p len x Hlen) as [[H E]|[[H E]|[H E]]];
    fold c in E.
  - assert (B : (Fin x <=? Fin p) = true) by (unfold leb; qprop; lra).
    rewrite B. cbn [denotes zero]. rewrite E. split; ring.
  - assert (B1 : (Fin x <=? Fin p) = false) by (unfold leb; qprop; lra).
    assert (B2 : (Fin x <=? Fin p + Fin len) = true)
      by (unfold add, leb; qprop; lra).
    rewrite B1, B2. split.
    + eapply denotes_eq; [unfold zero; denote|]. rewrite E. ring.
    + eapply denotes_eq; [unfold zero; denote; discriminate|].
      rewrite E. field.
  - assert (B1 : (Fin x <=? Fin p) = false) by (unfold leb; qprop; lra).
    assert (B2 : (Fin x <=? Fin p + Fin len) = false)
      by (unfold add, leb; qprop; lra).
    rewrite B1, B2. split.
    + eapply denotes_eq; [unfold zero; denote|]. rewrite E. ring.
    + eapply denotes_eq; [unfold zero; denote; discriminate|].
      rewrite E. field.
Qed.

(** X27. One distributed load in the utility module, with a position, an
    intensity and a positive length up to 1000, at a position [x] within
    [[-1000, 1000]]: with [c] the loaded length to the left of [x], that is
    [x - position] clamped to [[0, length]], the shear is [magnitude * c]
    and the moment is [magnitude * c * (x - position - c/2)], both within
    0.00001. *)
Theorem utils_distributed_load_closed_form :
  forall (l : Load) (p m len x : Q),
    type l = distributed -> position l = Fin p -> magnitude l = Fin m ->
    length l = Some (Fin len) -> (0 < len <= 1000)%Q ->
    (Qabs p <= 1000)%Q -> (Qabs m <= 1000)%Q -> (Qabs x <= 1000)%Q ->
    let c := Qmax 0 (Qmin (x - p) len) in
    exists v s : Q,
      Utils.calculateShear (Fin x) [l] = Fin v
      /\ Utils.calculateMoment (Fin x) [l] = Fin s
      /\ (- (1 # 100000) <= v - m * c <= 1 # 100000)%Q
      /\ (- (1 # 100000) <= s - m * c * (x - p - c / 2) <= 1 # 100000)%Q.
Proof.
  intros l p m len x Ht Hp Hm Hl [Hlen _] _ _ _ c.
  destruct (utils_distributed_load_value l p m len x Ht Hp Hm Hl Hlen)
    as [DV DM].
  fold c in DV, DM.
  apply denotes_inv in DV as (v & EV & VV).
  apply denotes_inv in DM as (s & ES & VS).
  exists v, s. rewrite EV, ES.
  split; [reflexivity|]. split; [reflexivity|].
  rewrite VV, VS. split; lra.
Qed.

(* ================================================================== *)
(** ** Left of every load *)

Section RoundingTwice.

Local Open Scope Q_scope.

Lemma Qfloor_half : forall z : Z, Qfloor (inject_Z z + (1 # 2)) = z.
Proof.
  intros z. rewrite (Qfloor_comp _ ((2 * z + 1) # 2)).
  - unfold Qfloor. cbn [Qnum Qden]. symmetry.
    apply Z.div_unique with (r := 1%Z); lia.
  - unfold Qeq, Qplus, inject_Z. cbn [Qnum Qden]. lia.
Qed.

Lemma Qround3_fixed :
  forall z : Z, Qround 3 (inject_Z z / Qpow10 3) == inject_Z z / Qpow10 3.
Proof.
  intros z. unfold Qround.
  assert (E : inject_Z z / Qpow10 3 * Qpow10 3 + (1 # 2)
              == inject_Z z + (1 # 2)).
  { change (Qpow10 3) with (1000 # 1). field. }
  rewrite (Qfloor_comp _ _ E), Qfloor_half. reflexivity.
Qed.

Lemma QtoFixed3_twice_nonneg :
  forall x, 0 <= x -> QtoFixed 3 (QtoFixed 3 x) == QtoFixed 3 x.
Proof.
  intros x H. pose proof (QtoFixed3_nonneg x H) as N.
  rewrite (QtoFixed_nonneg 3 (QtoFixed 3 x) N).
  destruct (Qle_bool (Qpow10 21) (QtoFixed 3 x)) eqn:B; [reflexivity|].
  rewrite (QtoFixed_nonneg 3 x H) in *.
  destruct (Qle_bool (Qpow10 21) x) eqn:B'.
  - congruence.
  - unfold Qround at 2 3. apply Qround3_fixed.
Qed.

(** Rounding a rounded value changes nothing. *)
Lemma QtoFixed3_twice :
  forall x, QtoFixed 3 (QtoFixed 3 x) == QtoFixed 3 x.
Proof.
  intros x. destruct (Qlt_le_dec x 0) as [H|H].
  - assert (A : QtoFixed 3 x == - QtoFixed 3 (- x)).
    { rewrite <- QtoFixed_opp. apply QtoFixed_compat. ring. }
    rewrite (QtoFixed_compat 3 _ _ A), QtoFixed_opp.
    rewrite QtoFixed3_twice_nonneg by lra. symmetry. exact A.
  - now apply QtoFixed3_twice_nonneg.
Qed.

End RoundingTwice.

Lemma toFixed3_twice : forall a, toFixed 3 (toFixed 3 a) = toFixed 3 a.
Proof.
  intros [| | |p]; try reflexivity. cbn [toFixed]. f_equal.
  apply Qred_complete.
  rewrite (QtoFixed_compat 3 _ _ (Qred_correct (QtoFixed 3 p))).
  apply QtoFixed3_twice.
Qed.

Lemma steps_left_of_load :
  forall x l,
    (position l >? x) = true ->
    (forall s, shear_step x s l = s)
    /\ (forall s, moment_step x s l = s)
    /\ (forall s, torsion_step x s l = s).
Proof.
  intros x l H. unfold shear_step, moment_step, torsion_step.
  rewrite H, orb_true_r. repeat split.
Qed.

Lemma fold_left_all_skip :
  forall (A B : Type) (f : A -> B -> A) (l : list B) (a0 : A),
    Forall (fun b => forall a, f a b = a) l -> fold_left f l a0 = a0.
Proof.
  intros A B f l a0 H. induction H as [|x l Hx _ IH]; [reflexivity|].
  cbn [fold_left]. now rewrite Hx.
Qed.

Lemma reactions_are_rounded :
  forall loads sA sB kA kB,
    toFixed 3 (reactionA (calculateReactions loads sA sB kA kB))
    = reactionA (calculateReactions loads sA sB kA kB).
Proof.
  intros. unfold calculateReactions.
  destruct (_ <=? zero); [reflexivity|].
  destruct (fixedEndMoments _ _ _ _ _ _) as [mA mB].
  destruct (primaryReactions _ _ _ _) as [rA rB].
  destruct (_ && _); [|destruct (SupportType_eqb kA fixed);
                       [|destruct (SupportType_eqb kB fixed)]];
    cbn [reactionA]; apply toFixed3_twice.
Qed.

(** X28. Between the supports and to the left of every load, no load is read:
    the torsion is 0 and, with the reactions that [calculateReactions]
    returns for the same loads and supports, the shear is exactly
    [reactionA]. *)
Theorem shear_left_of_loads :
  forall (loads : list Load) (sA sB : num) (kA kB : SupportType) (x : num),
    (x <? sA) || (x >? sB) = false ->
    Forall (fun l => (position l >? x) = true) loads ->
    let r := calculateReactions loads sA sB kA kB in
    calculateShear loads sA sB r x = reactionA r
    /\ calculateTorsion loads sA sB x = zero.
Proof.
  intros loads sA sB kA kB x Hin H r. subst r.
  unfold calculateShear, calculateTorsion, outside. rewrite Hin. split.
  - rewrite fold_left_all_skip; [apply reactions_are_rounded|].
    eapply Forall_impl; [|exact H].
    intros l Hl. apply (steps_left_of_load x l Hl).
  - rewrite fold_left_all_skip; [reflexivity|].
    eapply Forall_impl; [|exact H].
    intros l Hl. apply (steps_left_of_load x l Hl).
Qed.

(* ================================================================== *)
(** ** The two validators together *)

(** X29. On finite numbers, [validateBeamLength] and [validateLoad] together
    accept exactly the loads that are in order: a beam length above 0, a
    position in [[0, beamLength]] and, for a distributed load, a finite
    length above 0 such that the sum [position + length], as the code
    computes it, is not greater than the beam length. *)
Theorem validators_on_finite_numbers :
  forall (i : Z) (t : LoadType) (p m b : Q) (len : option num),
    let load := mkLoad i t (Fin p) (Fin m) len in
    (Utils.isValid (Utils.validateBeamLength (Fin b)) = true
     /\ Utils.isValid (Utils.validateLoad load (Fin b)) = true)
    <-> ((0 < b)%Q /\ (0 <= p <= b)%Q
         /\ (t = distributed ->
             exists ln, len = Some (Fin ln)
                        /\ (0 < ln)%Q
                        /\ (Fin p + Fin ln <=? Fin b) = true)).
Proof.
  intros i t p m b len load. subst load.
  unfold Utils.validateBeamLength, Utils.validateLoad.
  cbn [position magnitude type length isNaN orb].
  destruct (Fin b <=? zero) eqn:E0; step;
    unfold leb, zero in E0; qprop.
  { split; [intros [H _]; discriminate H | intros [H _]; lra]. }
  destruct (Fin p <? zero) eqn:E1; step; unfold ltb, zero in E1; qprop.
  { split; [intros [_ H]; discriminate H | intros (_ & H & _); lra]. }
  destruct (Fin p >? Fin b) eqn:E2; step; unfold gtb, ltb in E2; qprop.
  { split; [intros [_ H]; discriminate H | intros (_ & H & _); lra]. }
  destruct t; step;
    try (split; [intros _; repeat split; try lra; discriminate
                | intros _; split; reflexivity]).
  destruct len as [[| | |ln]|]; step.
  - split; [intros [_ H]; discriminate H|].
    intros (_ & _ & H). destruct (H eq_refl) as (ln & C & _). discriminate C.
  - split; [intros [_ H]; discriminate H|].
    intros (_ & _ & H). destruct (H eq_refl) as (ln & C & _). discriminate C.
  - split; [intros [_ H]; discriminate H|].
    intros (_ & _ & H). destruct (H eq_refl) as (ln & C & _). discriminate C.
  - destruct (Fin ln <=? zero) eqn:E3; step; unfold leb, zero in E3; qprop.
    { split; [intros [_ H]; discriminate H|].
      intros (_ & _ & H). destruct (H eq_refl) as (ln' & C & G & _).
      injection C as <-. lra. }
    assert (E5 : (Fin p + Fin ln >? Fin b)
                 = negb (Fin p + Fin ln <=? Fin b))
      by (apply ltb_negb_leb; reflexivity).
    destruct (Fin p + Fin ln >? Fin b) eqn:E4; step.
    { split; [intros [_ H]; discriminate H|].
      intros (_ & _ & H). destruct (H eq_refl) as (ln' & C & _ & G).
      injection C as <-. rewrite G in E5. discriminate E5. }
    split; [|intros _; split; reflexivity].
    intros _. repeat split; try lra. intros _. exists ln.
    repeat split; try lra.
    symmetry in E5. now apply negb_false_iff in E5.
  - split; [intros [_ H]; discriminate H|].
    intros (_ & _ & H). destruct (H eq_refl) as (ln & C & _). discriminate C.
Qed.


(* ================================================================== *)
(** ** Instances *)

Lemma handleSupportPositionChange_keeps_order_witness :
  UI.supportsOrdered
    (UI.handleSupportPositionChange sampleState (n 1) true) = true.
Proof.
  apply (handleSupportPositionChange_keeps_order sampleState (n 1) true).
  decided.
Defined.

Lemma handleBeamLengthChange_clips_witness :
  let st' := UI.handleBeamLengthChange sampleState (n 2) in
  UI.beamLength st' = n 2
  /\ map id (UI.loads st') = map id (UI.loads sampleState)
  /\ map type (UI.loads st') = map type (UI.loads sampleState)
  /\ map magnitude (UI.loads st') = map magnitude (UI.loads sampleState)
  /\ Forall (fun l => isNaN (position l) = false ->
                      (position l <=? n 2) = true) (UI.loads st')
  /\ (isNaN (UI.endSupportPosition sampleState) = false ->
      (UI.endSupportPosition st' <=? n 2) = true).
Proof.
  apply (handleBeamLengthChange_clips sampleState (n 2)). decided.
Defined.

Lemma handleBeamLengthChange_keeps_order_witness :
  UI.supportsOrdered (UI.handleBeamLengthChange sampleState (n 2)) = true.
Proof.
  apply (handleBeamLengthChange_keeps_order sampleState (n 2)); decided.
Defined.

Lemma clipLoad_cuts_length_witness :
  exists len',
    length (UI.clipLoad (Fin 2) uniformLoad) = Some len'
    /\ position (UI.clipLoad (Fin 2) uniformLoad) = Fin 1
    /\ (len' <=? Fin 2 - Fin 1) = true
    /\ (len' <=? n 2) = true
    /\ ((zero <? n 2) = true -> (zero <=? len') = true).
Proof.
  apply (clipLoad_cuts_length uniformLoad 1 2 (n 2)); decided.
Defined.

Lemma clipLoad_negative_length_witness :
  exists len',
    length (UI.clipLoad (Fin (1 # 2)) uniformLoad) = Some len'
    /\ position (UI.clipLoad (Fin (1 # 2)) uniformLoad) = Fin (1 # 2)
    /\ (len' <? zero) = true.
Proof.
  apply (clipLoad_negative_length uniformLoad 1 (1 # 2) (n 2)); decided.
Defined.

Lemma sampleLoads_ids : NoDup (map id sampleLoads).
Proof.
  repeat constructor; simpl; intuition discriminate.
Defined.

Lemma sampleLoads_small_ids :
  Forall (fun l => (id l < 2 ^ 53)%Z) sampleLoads.
Proof.
  repeat constructor.
Defined.

Lemma addLoad_fresh_id_witness :
  NoDup (map id (UI.addLoad sampleLoads (n 5)))
  /\ Forall (fun l => (id l < UI.maxId (UI.addLoad sampleLoads (n 5)))%Z)
            sampleLoads
  /\ (0 < UI.maxId (UI.addLoad sampleLoads (n 5)))%Z.
Proof.
  apply (addLoad_fresh_id sampleLoads (n 5)).
  - exact sampleLoads_small_ids.
  - exact sampleLoads_ids.
Defined.

Lemma removeLoad_addLoad_witness :
  UI.removeLoad (UI.addLoad sampleLoads (n 5))
    (UI.maxId (UI.addLoad sampleLoads (n 5))) = sampleLoads.
Proof.
  apply (removeLoad_addLoad sampleLoads (n 5)).
  exact sampleLoads_small_ids.
Defined.

Lemma addLoad_valid_witness :
  Forall (fun l => Utils.isValid (Utils.validateLoad l (Fin 5)) = true)
         (UI.addLoad sampleLoads (Fin 5)).
Proof.
  apply (addLoad_valid sampleLoads 5).
  - decided.
  - repeat constructor.
Defined.

Lemma updateLoad_position_clamped_witness :
  Forall (fun l =>
            id l = 1%Z ->
            (zero <=? position l) = true
            /\ (position l <=? Fin 5) = true
            /\ (type l <> distributed -> isNaN (magnitude l) = false ->
                Utils.isValid (Utils.validateLoad l (Fin 5)) = true))
         (UI.updateLoad sampleLoads (Fin 5) 1 (UI.SetPosition (n 7))).
Proof.
  apply (updateLoad_position_clamped sampleLoads 5 1 (n 7)); decided.
Defined.

Lemma updateLoad_length_clamped_witness :
  exists len,
    length (UI.applyUpdate (Fin 5) (UI.SetLength (n 9)) uniformLoad)
    = Some len
    /\ (zero <=? len) = true
    /\ (len <=? Fin 5 - Fin 1) = true.
Proof.
  apply (updateLoad_length_clamped uniformLoad 5 1 (n 9)); decided.
Defined.

Lemma single_point_load_reactions_witness :
  let r := calculateReactions [midLoad] (Fin 0) (Fin 5) pin roller in
  exists rA rB : Q,
    reactionA r = Fin rA /\ reactionB r = Fin rB
    /\ (- (1 # 1000)
        <= rA - Qabs 50 * (5 - (5 # 2)) / (5 - 0) <= 1 # 1000)%Q
    /\ (- (1 # 1000)
        <= rB - Qabs 50 * ((5 # 2) - 0) / (5 - 0) <= 1 # 1000)%Q
    /\ (- (1 # 500) <= rA + rB - Qabs 50 <= 1 # 500)%Q
    /\ momentA r = zero /\ momentB r = zero.
Proof.
  apply (single_point_load_reactions midLoad (5 # 2) 50 0 5 pin roller);
    ranged.
Defined.

Lemma single_distributed_load_reactions_witness :
  let r := calculateReactions [uniformLoad] (Fin 0) (Fin 5) pin roller in
  let eff := (Qmin (1 + 2) 5 - 1)%Q in
  exists rA rB : Q,
    reactionA r = Fin rA /\ reactionB r = Fin rB
    /\ (- (1 # 1000)
        <= rB - Qabs 5 * eff * (1 + eff / 2 - 0) / (5 - 0)
        <= 1 # 1000)%Q
    /\ (- (1 # 500) <= rA + rB - Qabs 5 * eff <= 1 # 500)%Q.
Proof.
  apply (single_distributed_load_reactions uniformLoad 1 5 2 0 5 pin roller);
    ranged.
Defined.

Lemma single_moment_load_reactions_witness :
  let r := calculateReactions [coupleLoad] (Fin 0) (Fin 5) pin roller in
  exists rB : Q,
    reactionB r = Fin rB
    /\ reactionA r = - reactionB r
    /\ (- (1 # 1000) <= rB - 15 / (5 - 0) <= 1 # 1000)%Q.
Proof.
  apply (single_moment_load_reactions coupleLoad 3 15 0 5 pin roller);
    ranged.
Defined.

Lemma point_load_on_end_support_witness :
  let r := calculateReactions [midLoad; endLoad] (Fin 0) (Fin 5) pin fixed in
  momentB r = NaN
  /\ (fixed = fixed -> reactionA r = NaN /\ reactionB r = NaN).
Proof.
  apply (point_load_on_end_support [midLoad; endLoad] endLoad 0 5 50
           pin fixed); try decided.
  - right. left. reflexivity.
  - right. reflexivity.
Defined.

Lemma sampleLoads_bounded : Forall (boundedLoad 1000) sampleLoads.
Proof.
  repeat (apply Forall_cons; [repeat split; ranged|]). apply Forall_nil.
Defined.

Lemma internal_forces_finite_witness :
  isFinite (calculateShear sampleLoads (n 0) (n 5) zeroReactions (n 3)) = true
  /\ isFinite (calculateMoment sampleLoads (n 0) (n 5) pin zeroReactions
                 (n 3)) = true
  /\ isFinite (calculateTorsion sampleLoads (n 0) (n 5) (n 3)) = true.
Proof.
  apply (internal_forces_finite sampleLoads (n 0) (n 5) pin zeroReactions
           (n 3)); try ranged.
  exact sampleLoads_bounded.
Defined.

Lemma reactions_finite_witness :
  let r := calculateReactions [midLoad] (Fin 0) (Fin 5) fixed fixed in
  isFinite (reactionA r) = true /\ isFinite (reactionB r) = true
  /\ isFinite (momentA r) = true /\ isFinite (momentB r) = true.
Proof.
  apply (reactions_finite [midLoad] 0 5 fixed fixed); try ranged.
  apply Forall_cons; [|apply Forall_nil]. split.
  - repeat split; ranged.
  - intros _ p E. injection E as <-. left. unfold Qle. simpl. lia.
Defined.

Lemma section_properties_positive_witness :
  let p := calculateSectionProperties (Fin (1 # 5)) (Fin (1 # 10)) in
  finitePositive (area p) /\ finitePositive (momentOfInertia p)
  /\ finitePositive (sectionModulus p)
  /\ finitePositive (polarMomentOfInertia p)
  /\ finitePositive (torsionalConstant p).
Proof.
  apply (section_properties_positive (1 # 10) (1 # 5)); ranged.
Defined.

Lemma stresses_finite_nonnegative_witness :
  let s := calculateStresses (fun q => q) (Fin (1 # 5)) (Fin (1 # 10))
             sampleLoads (n 0) (n 5) pin zeroReactions (n 3) in
  finiteNonNegative (normalStress s)
  /\ finiteNonNegative (shearStress s)
  /\ finiteNonNegative (torsionalStress s)
  /\ finiteNonNegative (vonMisesStress s).
Proof.
  apply (stresses_finite_nonnegative (fun q => q) (fun p H => H)
           (1 # 10) (1 # 5)); try ranged.
  exact sampleLoads_bounded.
Defined.

Lemma outside_supports_all_zero_witness :
  calculateShear sampleLoads (n 1) (n 4) zeroReactions (lit 9 2) = zero
  /\ calculateMoment sampleLoads (n 1) (n 4) pin zeroReactions (lit 9 2)
     = zero
  /\ calculateTorsion sampleLoads (n 1) (n 4) (lit 9 2) = zero
  /\ calculateStresses (fun q => q) (Fin (1 # 5)) (Fin (1 # 10)) sampleLoads
       (n 1) (n 4) pin zeroReactions (lit 9 2)
     = {| normalStress := zero; shearStress := zero;
          torsionalStress := zero; vonMisesStress := zero |}.
Proof.
  apply (outside_supports_all_zero (fun q => q) (1 # 10) (1 # 5)); ranged.
Defined.

Lemma utils_forces_zero_before_loads_witness :
  Utils.calculateShear (n 1) sampleLoads = zero
  /\ Utils.calculateMoment (n 1) sampleLoads = zero.
Proof.
  apply (utils_forces_zero_before_loads (n 1) sampleLoads).
  repeat constructor.
Defined.

Lemma utils_diagram_starts_at_origin_witness :
  hd_error (Utils.generateDiagramData (Fin 5) sampleLoads)
  = Some {| Utils.DiagramPoint.position := zero;
            Utils.DiagramPoint.shear := zero;
            Utils.DiagramPoint.moment := zero |}.
Proof.
  apply (utils_diagram_starts_at_origin 5 sampleLoads).
  repeat constructor.
Defined.

Lemma utils_distributed_load_closed_form_witness :
  let c := Qmax 0 (Qmin (2 - 1) 2) in
  exists v s : Q,
    Utils.calculateShear (Fin 2) [uniformLoad] = Fin v
    /\ Utils.calculateMoment (Fin 2) [uniformLoad] = Fin s
    /\ (- (1 # 100000) <= v - 5 * c <= 1 # 100000)%Q
    /\ (- (1 # 100000) <= s - 5 * c * (2 - 1 - c / 2) <= 1 # 100000)%Q.
Proof.
  apply (utils_distributed_load_closed_form uniformLoad 1 5 2 2); ranged.
Defined.

Lemma shear_left_of_loads_witness :
  let r := calculateReactions sampleLoads (n 0) (n 5) pin roller in
  calculateShear sampleLoads (n 0) (n 5) r (lit 1 2) = reactionA r
  /\ calculateTorsion sampleLoads (n 0) (n 5) (lit 1 2) = zero.
Proof.
  apply (shear_left_of_loads sampleLoads (n 0) (n 5) pin roller (lit 1 2)).
  - decided.
  - repeat constructor.
Defined.
